(** * processorScheduler: a tick-driven simulator of CPU scheduling policies

    Shallow embedding of [sched3.c] (the simulation framework) and [pa2.c]
    (the scheduling policies and resource protocols), followed by the
    properties of the engine and of the policies.

    Conventions of the embedding.
    - A [struct process *] is an address ([ptr]); the records live in a
      finite map from addresses to [process] values, [free] deletes the
      binding, and dereferencing an unbound address is a fault.
    - The intrusive [struct list_head] rings are kept as the sequence of
      their members, in traversal order: [readyqueue], [__forkqueue] and
      one [waitqueue] per resource hold process addresses, the two rings of
      a process hold [resource_schedule] values.  [list_empty(&p->list)]
      on a process node is "p is a member of no queue".  The sequence view
      coincides with the rings as long as a node is never inserted while
      it is still linked; where the source does insert a linked node the
      sequences record both memberships.
    - C code running against global variables becomes a computation in the
      state-and-fault monad [M]; a failed [assert] and an invalid memory
      access end the run with a [fault].
    - [__print_event] and the idle message append an [event] to [trace]. *)

From Stdlib Require Import ZArith Lia.
From stdpp Require Import base option list gmap.

Abbreviation ptr := nat.

(** ** Data model *)

(** [enum process_status], in the order of [__process_status_sz]. *)
Inductive process_status :=
| PROCESS_READY
| PROCESS_RUNNING
| PROCESS_WAIT
| PROCESS_EXIT.

Global Instance process_status_eq_dec : EqDecision process_status.
Proof. solve_decision. Defined.

(** [struct resource_schedule]: three [int] fields. *)
Record resource_schedule := ResourceSchedule {
  resource_id : Z;
  rs_at : Z;
  duration : Z;
}.

Global Instance resource_schedule_eq_dec : EqDecision resource_schedule.
Proof. solve_decision. Defined.

(** Modelled from the spec: [struct process] is declared in [process.h],
    which is not in the source tree.  The fields are the ones the two C
    files access; the numeric ones are non-negative integers (pid,
    lifespan, age, priority, original priority, start tick). *)
Record process := Process {
  pid : nat;
  status : process_status;
  age : nat;
  lifespan : nat;
  prio : nat;
  prio_orig : nat;
  __starts_at : nat;
  __resources_to_acquire : list resource_schedule;
  __resources_holding : list resource_schedule;
}.

(** Modelled from the spec: [struct resource] is declared in [resource.h]
    (not in the source tree): an optional owner and a wait queue. *)
Record resource := Resource {
  owner : option ptr;
  waitqueue : list ptr;
}.

(** What the simulator writes to stderr. *)
Inductive event :=
| EvForked (tick : Z) (p : nat)              (* "N" *)
| EvExited (tick : Z) (p : nat)              (* "X" *)
| EvAcquired (tick : Z) (p : nat) (r : Z)    (* "+r" *)
| EvReleased (tick : Z) (p : nat) (r : Z)    (* "-r" *)
| EvRan (tick : Z) (p : nat)                 (* the pid itself *)
| EvBlocked (tick : Z) (p : nat)             (* "=" *)
| EvIdle (tick : Z).                         (* "idle" *)

Global Instance event_eq_dec : EqDecision event.
Proof. solve_decision. Defined.

(** The global variables of the two files. *)
Record sim := Sim {
  procs : gmap nat process;        (* the heap of process records *)
  readyqueue : list ptr;
  __forkqueue : list ptr;
  resources : list resource;       (* struct resource resources[NR_RESOURCES] *)
  current : option ptr;
  ticks : Z;                       (* unsigned int *)
  ticks_cnt : Z;                   (* int, used by rr_schedule *)
  trace : list event;
}.

(** Ways a run ends other than by leaving the main loop. *)
Inductive fault :=
| AssertExitDetached        (* assert(list_empty(&p->list)) *)
| AssertExitNotHolding      (* assert(list_empty(&p->__resources_holding)) *)
| AssertExitNoPending       (* assert(list_empty(&p->__resources_to_acquire)) *)
| AssertCurrentDetached     (* assert(list_empty(&current->list)) *)
| AssertOwner               (* assert(r->owner == current) *)
| AssertWaiterStatus        (* assert(waiter->status == PROCESS_WAIT) *)
| AssertImplemented         (* assert(sched->schedule && ...) and the like *)
| NullPointer               (* dereference of NULL *)
| DanglingPointer           (* dereference of a freed record *)
| OutOfBounds.              (* resources[i] outside the table *)

Global Instance fault_eq_dec : EqDecision fault.
Proof. solve_decision. Defined.

Inductive result (A : Type) :=
| Ok (a : A)
| Crash (f : fault).
Global Arguments Ok {A} a.
Global Arguments Crash {A} f.

(** ** Field updates *)

Definition set_status (st : process_status) (p : process) : process :=
  Process (pid p) st (age p) (lifespan p) (prio p) (prio_orig p)
          (__starts_at p) (__resources_to_acquire p) (__resources_holding p).

Definition set_age (a : nat) (p : process) : process :=
  Process (pid p) (status p) a (lifespan p) (prio p) (prio_orig p)
          (__starts_at p) (__resources_to_acquire p) (__resources_holding p).

Definition set_prio (n : nat) (p : process) : process :=
  Process (pid p) (status p) (age p) (lifespan p) n (prio_orig p)
          (__starts_at p) (__resources_to_acquire p) (__resources_holding p).

Definition set_to_acquire (l : list resource_schedule) (p : process) : process :=
  Process (pid p) (status p) (age p) (lifespan p) (prio p) (prio_orig p)
          (__starts_at p) l (__resources_holding p).

Definition set_holding (l : list resource_schedule) (p : process) : process :=
  Process (pid p) (status p) (age p) (lifespan p) (prio p) (prio_orig p)
          (__starts_at p) (__resources_to_acquire p) l.

Definition set_duration (d : Z) (rs : resource_schedule) : resource_schedule :=
  ResourceSchedule (resource_id rs) (rs_at rs) d.

Definition set_procs (f : gmap nat process → gmap nat process) (s : sim) : sim :=
  Sim (f (procs s)) (readyqueue s) (__forkqueue s) (resources s) (current s)
      (ticks s) (ticks_cnt s) (trace s).

Definition set_readyqueue (q : list ptr) (s : sim) : sim :=
  Sim (procs s) q (__forkqueue s) (resources s) (current s)
      (ticks s) (ticks_cnt s) (trace s).

Definition set_forkqueue (q : list ptr) (s : sim) : sim :=
  Sim (procs s) (readyqueue s) q (resources s) (current s)
      (ticks s) (ticks_cnt s) (trace s).

Definition set_resources (f : list resource → list resource) (s : sim) : sim :=
  Sim (procs s) (readyqueue s) (__forkqueue s) (f (resources s)) (current s)
      (ticks s) (ticks_cnt s) (trace s).

Definition set_current (c : option ptr) (s : sim) : sim :=
  Sim (procs s) (readyqueue s) (__forkqueue s) (resources s) c
      (ticks s) (ticks_cnt s) (trace s).

Definition set_ticks (t : Z) (s : sim) : sim :=
  Sim (procs s) (readyqueue s) (__forkqueue s) (resources s) (current s)
      t (ticks_cnt s) (trace s).

Definition set_ticks_cnt (t : Z) (s : sim) : sim :=
  Sim (procs s) (readyqueue s) (__forkqueue s) (resources s) (current s)
      (ticks s) t (trace s).

Definition add_event (e : event) (s : sim) : sim :=
  Sim (procs s) (readyqueue s) (__forkqueue s) (resources s) (current s)
      (ticks s) (ticks_cnt s) (trace s ++ [e]).

(** ** Machine integers *)

(** [unsigned int] arithmetic is modulo 2^32. *)
Definition wrap_uint (z : Z) : Z := (z mod 2 ^ 32)%Z.

(** [int] arithmetic, two's complement. *)
Definition wrap_int (z : Z) : Z := ((z + 2 ^ 31) mod 2 ^ 32 - 2 ^ 31)%Z.

(** ** The state-and-fault monad *)

Definition M (A : Type) : Type := sim → result (A * sim).

Definition ret {A} (a : A) : M A := λ s, Ok (a, s).

Definition bind {A B} (m : M A) (k : A → M B) : M B :=
  λ s, match m s with
       | Ok (a, s') => k a s'
       | Crash f => Crash f
       end.

Notation "'let*' x ':=' m 'in' k" := (bind m (λ x, k))
  (at level 10, x name, m at level 100, k at level 200).
Notation "m ';;' k" := (bind m (λ _, k))
  (at level 100, k at level 200, right associativity).

Definition crash {A} (f : fault) : M A := λ _, Crash f.

Definition gets {A} (f : sim → A) : M A := λ s, Ok (f s, s).

Definition modify (f : sim → sim) : M unit := λ s, Ok (tt, f s).

(** [assert(b)] *)
Definition assert (b : bool) (f : fault) : M unit :=
  if b then ret tt else crash f.

(** [*c] for a process pointer that is known not to be NULL. *)
Definition deref (c : ptr) : M process :=
  λ s, match procs s !! c with
       | Some p => Ok (p, s)
       | None => Crash DanglingPointer
       end.

(** [c->field = ...] *)
Definition update (c : ptr) (f : process → process) : M unit :=
  λ s, match procs s !! c with
       | Some p => Ok (tt, set_procs (insert c (f p)) s)
       | None => Crash DanglingPointer
       end.

(** A pointer about to be dereferenced: NULL faults. *)
Definition nonnull (o : option ptr) : M ptr :=
  match o with
  | Some c => ret c
  | None => crash NullPointer
  end.

(** [resources + resource_id], read. *)
Definition resource_at (rid : Z) : M resource :=
  λ s, if (rid <? 0)%Z then Crash OutOfBounds
       else match resources s !! Z.to_nat rid with
            | Some r => Ok (r, s)
            | None => Crash OutOfBounds
            end.

(** Assignment to the fields of [resources[rid]] (after a successful read). *)
Definition set_resource (rid : Z) (r : resource) : M unit :=
  modify (set_resources (insert (Z.to_nat rid) r)).

(** [__print_event] *)
Definition print_event (e : event) : M unit := modify (add_event e).

(** ** List primitives of [list_head.h] on the sequence view *)

(** [list_del] / [list_del_init] of node [c] from the ring [q]. *)
Fixpoint list_del (c : ptr) (q : list ptr) : list ptr :=
  match q with
  | [] => []
  | x :: q' => if decide (x = c) then q' else x :: list_del c q'
  end.

(** [list_add_tail(&c->list, &q)] *)
Definition list_add_tail (c : ptr) (q : list ptr) : list ptr := q ++ [c].

(** [list_add(&c->list, &q)] *)
Definition list_add (c : ptr) (q : list ptr) : list ptr := c :: q.

(** All the wait queues of the resource table, in table order. *)
Definition waiters (s : sim) : list ptr :=
  concat (waitqueue <$> resources s).

(** Every queue membership in the system. *)
Definition linked (s : sim) : list ptr :=
  __forkqueue s ++ readyqueue s ++ waiters s.

(** [list_empty(&c->list)] for a process node. *)
Definition detached (c : ptr) (s : sim) : bool :=
  bool_decide (c ∉ linked s).

(** ** Default FCFS resource protocol ([fcfs_acquire], [fcfs_release]) *)

Definition fcfs_acquire (rid : Z) : M bool :=
  let* r := resource_at rid in
  match owner r with
  | None =>
      (* This resource is not owned by any one. Take it! *)
      let* cur := gets current in
      set_resource rid (Resource cur (waitqueue r));;
      ret true
  | Some _ =>
      let* c := let* cur := gets current in nonnull cur in
      update c (set_status PROCESS_WAIT);;
      set_resource rid (Resource (owner r) (list_add_tail c (waitqueue r)));;
      ret false
  end.

Definition fcfs_release (rid : Z) : M unit :=
  let* r := resource_at rid in
  let* cur := gets current in
  assert (bool_decide (owner r = cur)) AssertOwner;;
  set_resource rid (Resource None (waitqueue r));;
  match waitqueue r with
  | [] => ret tt
  | waiter :: _ =>
      let* w := deref waiter in
      assert (bool_decide (status w = PROCESS_WAIT)) AssertWaiterStatus;;
      set_resource rid (Resource None (list_del waiter (waitqueue r)));;
      update waiter (set_status PROCESS_READY);;
      modify (λ s, set_readyqueue (list_add_tail waiter (readyqueue s)) s)
  end.

(** ** Loops shared by the schedulers *)

(** The test that opens every [schedule] function: [current] is there, is
    not blocked and [current->age < current->lifespan]. *)
Definition current_has_lifetime : M bool :=
  let* cur := gets current in
  match cur with
  | None => ret false
  | Some c =>
      let* p := deref c in
      ret (negb (bool_decide (status p = PROCESS_WAIT)) && (age p <? lifespan p))
  end.

(** [list_for_each] computing the minimum lifespan, starting from [min]. *)
Fixpoint min_lifespan (min : nat) (q : list ptr) : M nat :=
  match q with
  | [] => ret min
  | prc :: q' =>
      let* p := deref prc in
      min_lifespan (if lifespan p <? min then lifespan p else min) q'
  end.

(** [list_for_each] looking for the first entry with [lifespan == min]. *)
Fixpoint find_lifespan (min : nat) (q : list ptr) : M (option ptr) :=
  match q with
  | [] => ret None
  | prc :: q' =>
      let* p := deref prc in
      if min =? lifespan p then ret (Some prc) else find_lifespan min q'
  end.

(** [list_for_each] computing the maximum priority, starting from [max]. *)
Fixpoint max_prio (max : nat) (q : list ptr) : M nat :=
  match q with
  | [] => ret max
  | prc :: q' =>
      let* p := deref prc in
      max_prio (if max <? prio p then prio p else max) q'
  end.

(** [list_for_each] looking for the first entry with [prio == max]. *)
Fixpoint find_prio (max : nat) (q : list ptr) : M (option ptr) :=
  match q with
  | [] => ret None
  | prc :: q' =>
      let* p := deref prc in
      if prio p =? max then ret (Some prc) else find_prio max q'
  end.

(** [list_del_init(&prc->list)] for an entry of the ready queue. *)
Definition detach_ready (prc : ptr) : M unit :=
  modify (λ s, set_readyqueue (list_del prc (readyqueue s)) s).

(** ** FIFO *)

Definition fifo_schedule : M (option ptr) :=
  let* again := current_has_lifetime in
  if again then gets current
  else
    (* pick_next: *)
    let* rq := gets readyqueue in
    match rq with
    | [] => ret None
    | next :: _ => detach_ready next;; ret (Some next)
    end.

(** ** SJF *)

Definition sjf_schedule : M (option ptr) :=
  let* again := current_has_lifetime in
  if again then gets current
  else
    (* pick_next: the counting loop leaves [prc] on the last entry *)
    let* rq := gets readyqueue in
    let prc := last rq in
    let cnt := length rq in
    if bool_decide (cnt ≠ 0) then
      let* min := min_lifespan 1000 rq in
      let* found := find_lifespan min rq in
      match found with
      | Some prc => detach_ready prc;; ret (Some prc)
      | None => ret prc
      end
    else ret prc.

(** ** SRTF *)

Definition srtf_schedule : M (option ptr) :=
  let* rq := gets readyqueue in
  let prc := last rq in
  let cnt := length rq in
  let* min := if bool_decide (cnt ≠ 0) then min_lifespan 1000 rq else ret 1000 in
  let pick_next : M (option ptr) :=
    let cnt := cnt + length rq in
    if bool_decide (cnt ≠ 0) then
      let* min := min_lifespan min rq in
      let* found := find_lifespan min rq in
      match found with
      | Some prc => detach_ready prc;; ret (Some prc)
      | None => ret prc
      end
    else ret prc in
  let* cur := gets current in
  match cur with
  | None => pick_next
  | Some c =>
      let* p := deref c in
      if bool_decide (status p = PROCESS_WAIT) then pick_next
      else if age p <? lifespan p then
        let cur_remain := lifespan p - age p in
        if min <? cur_remain then
          let* found := find_lifespan min rq in
          match found with
          | Some prc =>
              detach_ready prc;;
              modify (λ s, set_readyqueue (list_add c (readyqueue s)) s);;
              ret (Some prc)
          | None => pick_next
          end
        else ret (Some c)
      else pick_next
  end.

(** ** Round-robin *)

Definition rr_schedule : M (option ptr) :=
  modify (λ s, set_ticks_cnt (wrap_int (ticks_cnt s + 1)) s);;
  let pick_next : M (option ptr) :=
    let* rq := gets readyqueue in
    match rq with
    | [] => ret None
    | prc :: _ => detach_ready prc;; ret (Some prc)
    end in
  let* cur := gets current in
  match cur with
  | None => pick_next
  | Some c =>
      let* p := deref c in
      if bool_decide (status p = PROCESS_WAIT) then pick_next
      else if age p <? lifespan p then
        let* t := gets ticks in
        let* tc := gets ticks_cnt in
        let* rq := gets readyqueue in
        (* ticks == ticks_cnt compares as unsigned int *)
        if bool_decide (t = wrap_uint tc) then
          match rq with
          | prc :: _ =>
              detach_ready prc;;
              modify (λ s, set_readyqueue (list_add_tail c (readyqueue s)) s);;
              ret (Some prc)
          | [] => ret (Some c)
          end
        else ret (Some c)
      else pick_next
  end.

(** ** Priority scheduler and its resource protocol *)


(** The part of [prio_release], [pcp_release] and [pip_release] that
    follows [r->owner = NULL]: wake up the first waiter of maximal
    priority.  [r] is the resource as read on entry. *)
Definition wake_highest (rid : Z) (r : resource) : M unit :=
  match waitqueue r with
  | [] => ret tt
  | _ :: _ =>
      let* max := max_prio 0 (waitqueue r) in
      let* found := find_prio max (waitqueue r) in
      let* waiter := nonnull found in
      let* w := deref waiter in
      assert (bool_decide (status w = PROCESS_WAIT)) AssertWaiterStatus;;
      set_resource rid (Resource None (list_del waiter (waitqueue r)));;
      update waiter (set_status PROCESS_READY);;
      modify (λ s, set_readyqueue (list_add_tail waiter (readyqueue s)) s)
  end.



Section ceiling.

(** [MAX_PRIO] is a macro of [process.h], which is not in the source tree. *)
Variable MAX_PRIO : nat.

(** ** Priority scheduler with aging *)

(** [if (prc->prio < MAX_PRIO) prc->prio++] *)
Definition age_prio (prc : ptr) : M unit :=
  let* p := deref prc in
  if prio p <? MAX_PRIO then update prc (set_prio (prio p + 1)) else ret tt.

(** [list_for_each] aging every entry. *)
Fixpoint age_all (q : list ptr) : M unit :=
  match q with
  | [] => ret tt
  | prc :: q' => age_prio prc;; age_all q'
  end.

(** The selection loop of [pa_schedule]: the first entry of priority
    [max] becomes [next] (and sets [flag]); every other entry is aged. *)
Fixpoint pa_select (max : nat) (flag : bool) (next : option ptr) (q : list ptr)
  : M (option ptr) :=
  match q with
  | [] => ret next
  | prc :: q' =>
      let* p := deref prc in
      if (max =? prio p) && negb flag then pa_select max true (Some prc) q'
      else age_prio prc;; pa_select max flag next q'
  end.

(** [next->prio = next->prio_orig] *)
Definition reset_prio (c : ptr) : M unit :=
  let* p := deref c in update c (set_prio (prio_orig p)).

(** The code at the label [pick_next] of [pa_schedule], entered with the
    values of [cnt] and [max] at the jump. *)
Definition pa_pick_next (cnt max : nat) : M (option ptr) :=
  if bool_decide (cnt ≠ 0) then
    let* rq := gets readyqueue in
    let* max := max_prio max rq in
    let* next := pa_select max false None rq in
    let* n := nonnull next in
    detach_ready n;;
    reset_prio n;;
    ret next
  else ret None.

Definition pa_schedule : M (option ptr) :=
  let* rq := gets readyqueue in
  let cnt := length rq in
  let* cur := gets current in
  match cur with
  | None => pa_pick_next cnt 0
  | Some c =>
      let* p := deref c in
      if bool_decide (status p = PROCESS_WAIT) then pa_pick_next cnt 0
      else if age p <? lifespan p then
        if bool_decide (cnt ≠ 0) then
          let* max := max_prio 0 rq in
          if prio p <=? max then
            (* preemption! *)
            modify (λ s, set_readyqueue (list_add_tail c (readyqueue s)) s);;
            pa_pick_next cnt max
          else
            age_all rq;;
            reset_prio c;;
            ret (Some c)
        else reset_prio c;; ret (Some c)
      else pa_pick_next cnt 0
  end.

(** ** Priority ceiling protocol *)


End ceiling.

Definition pcp_release (rid : Z) : M unit :=
  let* r := resource_at rid in
  let* cur := gets current in
  assert (bool_decide (owner r = cur)) AssertOwner;;
  let* o := nonnull (owner r) in
  reset_prio o;;
  set_resource rid (Resource None (waitqueue r));;
  wake_highest rid r.

(** The selection loop of [pcp_schedule]: the first entry of priority
    [max] becomes [next]; nothing is aged. *)
Fixpoint pcp_select (max : nat) (flag : bool) (next : option ptr) (q : list ptr)
  : M (option ptr) :=
  match q with
  | [] => ret next
  | prc :: q' =>
      let* p := deref prc in
      if (max =? prio p) && negb flag then pcp_select max true (Some prc) q'
      else pcp_select max flag next q'
  end.


(** ** Priority inheritance protocol *)

Definition pip_acquire (rid : Z) : M bool :=
  let* r := resource_at rid in
  match owner r with
  | None =>
      let* cur := gets current in
      set_resource rid (Resource cur (waitqueue r));;
      let* c := nonnull cur in
      update c (set_status PROCESS_WAIT);;
      modify (λ s, set_readyqueue (list_add_tail c (readyqueue s)) s);;
      ret true
  | Some o =>
      let* po := deref o in
      let* c := let* cur := gets current in nonnull cur in
      let* pc := deref c in
      (if prio po <? prio pc then update o (set_prio (prio pc)) else ret tt);;
      update c (set_status PROCESS_WAIT);;
      set_resource rid (Resource (owner r) (list_add_tail c (waitqueue r)));;
      ret false
  end.

Definition pip_release (rid : Z) : M unit :=
  let* r := resource_at rid in
  let* cur := gets current in
  assert (bool_decide (owner r = cur)) AssertOwner;;
  let* o := nonnull (owner r) in
  reset_prio o;;
  set_resource rid (Resource None (waitqueue r));;
  wake_highest rid r.

(** ** The scheduler interface *)

(** Modelled from the spec: [struct scheduler] is declared in [sched.h]
    (not in the source tree).  The callbacks the framework calls; a NULL
    function pointer is [None]. *)
Record scheduler := Scheduler {
  acquire : option (Z → M bool);
  release : option (Z → M unit);
  schedule : option (M (option ptr));
  forked : option (ptr → M unit);
  exiting : option (ptr → M unit);
}.

Definition fifo_scheduler : scheduler :=
  Scheduler (Some fcfs_acquire) (Some fcfs_release) (Some fifo_schedule) None None.

Definition sjf_scheduler : scheduler :=
  Scheduler (Some fcfs_acquire) (Some fcfs_release) (Some sjf_schedule) None None.

Definition srtf_scheduler : scheduler :=
  Scheduler (Some fcfs_acquire) (Some fcfs_release) (Some srtf_schedule) None None.

Definition rr_scheduler : scheduler :=
  Scheduler (Some fcfs_acquire) (Some fcfs_release) (Some rr_schedule) None None.







(** [assert(sched->callback && "... not implemented")] *)
Definition implemented {A} (f : option A) : M A :=
  match f with
  | Some g => ret g
  | None => crash AssertImplemented
  end.

(** [if (sched->hook) sched->hook(p)] *)
Definition call_hook (h : option (ptr → M unit)) (c : ptr) : M unit :=
  match h with
  | Some f => f c
  | None => ret tt
  end.

(** ** The simulation framework *)

Section framework.

Variable sched : scheduler.

(** The body of the loop of [__fork_on_schedule], over the entries of the
    fork queue as they were on entry. *)
Fixpoint fork_loop (q : list ptr) : M nat :=
  match q with
  | [] => ret 0
  | c :: q' =>
      let* p := deref c in
      let* t := gets ticks in
      if (Z.of_nat (__starts_at p) <=? t)%Z then
        (* list_move_tail(&p->list, &readyqueue) *)
        modify (λ s, set_forkqueue (list_del c (__forkqueue s)) s);;
        modify (λ s, set_readyqueue (list_add_tail c (readyqueue s)) s);;
        update c (set_status PROCESS_READY);;
        print_event (EvForked t (pid p));;
        call_hook (forked sched) c;;
        let* n := fork_loop q' in
        ret (S n)
      else fork_loop q'
  end.

Definition __fork_on_schedule : M nat :=
  let* fq := gets __forkqueue in fork_loop fq.

Definition __exit_process (c : ptr) : M unit :=
  let* d := gets (detached c) in
  assert d AssertExitDetached;;
  let* p := deref c in
  assert (bool_decide (__resources_holding p = [])) AssertExitNotHolding;;
  assert (bool_decide (__resources_to_acquire p = [])) AssertExitNoPending;;
  call_hook (exiting sched) c;;
  let* p := deref c in
  let* t := gets ticks in
  print_event (EvExited t (pid p));;
  (* free(p) *)
  modify (set_procs (delete c)).

(** Removal of one [resource_schedule] node from a ring. *)
Fixpoint rs_del (rs : resource_schedule) (l : list resource_schedule)
  : list resource_schedule :=
  match l with
  | [] => []
  | x :: l' => if decide (x = rs) then l' else x :: rs_del rs l'
  end.

(** The body of the loop of [__run_current_acquire], over the pending
    entries as they were on entry. *)
Fixpoint acquire_loop (todo : list resource_schedule) : M bool :=
  match todo with
  | [] => ret true
  | rs :: todo' =>
      let* c := let* cur := gets current in nonnull cur in
      let* p := deref c in
      if (rs_at rs =? Z.of_nat (age p))%Z then
        let* acq := implemented (acquire sched) in
        let* ok := acq (resource_id rs) in
        if ok then
          (* list_move_tail(&rs->list, &current->__resources_holding) *)
          let* c := let* cur := gets current in nonnull cur in
          update c (λ p, set_holding (__resources_holding p ++ [rs])
                           (set_to_acquire (rs_del rs (__resources_to_acquire p)) p));;
          let* p := deref c in
          let* t := gets ticks in
          print_event (EvAcquired t (pid p) (resource_id rs));;
          acquire_loop todo'
        else ret false
      else acquire_loop todo'
  end.

Definition __run_current_acquire : M bool :=
  let* c := let* cur := gets current in nonnull cur in
  let* p := deref c in
  acquire_loop (__resources_to_acquire p).

(** The body of the loop of [__run_current_release], over the held
    entries as they were on entry; [i] is the position, in the ring as it
    is now, of the entry being visited. *)
Fixpoint release_loop (todo : list resource_schedule) (i : nat) : M unit :=
  match todo with
  | [] => ret tt
  | rs :: todo' =>
      let d := wrap_int (duration rs - 1) in
      let* c := let* cur := gets current in nonnull cur in
      update c (λ p, set_holding (<[i := set_duration d rs]> (__resources_holding p)) p);;
      if (d =? 0)%Z then
        let* rel := implemented (release sched) in
        rel (resource_id rs);;
        let* c := let* cur := gets current in nonnull cur in
        let* p := deref c in
        let* t := gets ticks in
        print_event (EvReleased t (pid p) (resource_id rs));;
        (* list_del(&rs->list); free(rs) *)
        update c (λ p, set_holding (delete i (__resources_holding p)) p);;
        release_loop todo' i
      else release_loop todo' (S i)
  end.

Definition __run_current_release : M unit :=
  let* c := let* cur := gets current in nonnull cur in
  let* p := deref c in
  release_loop (__resources_holding p) 0.

(** "If the system ran a process in the previous tick": the demotion and
    decommissioning of [prev] in [__do_simulation]. *)
Definition retire (prev : option ptr) : M unit :=
  match prev with
  | None => ret tt
  | Some pv =>
      let* p := deref pv in
      (if bool_decide (status p = PROCESS_RUNNING)
       then update pv (set_status PROCESS_READY) else ret tt);;
      let* p := deref pv in
      if age p =? lifespan p then
        update pv (set_status PROCESS_EXIT);;
        __exit_process pv
      else ret tt
  end.

(** "Execute the current process": the [else] branch of [if (!current)]. *)
Definition execute (c : ptr) : M unit :=
  update c (set_status PROCESS_RUNNING);;
  let* d := gets (detached c) in
  assert d AssertCurrentDetached;;
  let* ok := __run_current_acquire in
  if ok then
    let* c := let* cur := gets current in nonnull cur in
    let* p := deref c in
    let* t := gets ticks in
    print_event (EvRan t (pid p));;
    update c (λ p, set_age (age p + 1) p);;
    __run_current_release
  else
    let* c := let* cur := gets current in nonnull cur in
    let* p := deref c in
    let* t := gets ticks in
    print_event (EvBlocked t (pid p))
  .

(** What follows [current = sched->schedule()] in one round of the loop;
    the result is [false] when the loop is left by [break]. *)
Definition after_schedule (prev : option ptr) : M bool :=
  retire prev;;
  let* cur := gets current in
  match cur with
  | None =>
      let* rq := gets readyqueue in
      let* fq := gets __forkqueue in
      if bool_decide (rq = []) && bool_decide (fq = []) then ret false
      else
        let* t := gets ticks in
        print_event (EvIdle t);;
        modify (λ s, set_ticks (wrap_uint (ticks s + 1)) s);;
        ret true
  | Some c =>
      execute c;;
      modify (λ s, set_ticks (wrap_uint (ticks s + 1)) s);;
      ret true
  end.

(** "Ask scheduler to pick the next process to run" and all that follows
    in one round of the loop. *)
Definition reschedule : M bool :=
  let* prev := gets current in
  let* sch := implemented (schedule sched) in
  let* next := sch in
  modify (set_current next);;
  after_schedule prev.

(** One round of the [while (true)] loop of [__do_simulation]. *)
Definition round : M bool :=
  __fork_on_schedule;;
  reschedule.

(** [__do_simulation], for at most [fuel] rounds: [true] when the loop
    was left by [break], [false] when the rounds ran out. *)
Fixpoint simulation_loop (fuel : nat) : M bool :=
  match fuel with
  | 0 => ret false
  | S fuel' =>
      let* go := round in
      if go then simulation_loop fuel' else ret true
  end.

Definition __do_simulation (fuel : nat) : M bool :=
  implemented (schedule sched);;
  simulation_loop fuel.

End framework.

(** ** Start-up *)

(** [__initialize]: empty queues, a table of [NR_RESOURCES] free resources
    ([NR_RESOURCES] is a macro of [resource.h], not in the source tree);
    [ticks] and [ticks_cnt] carry their static initialisers. *)
Definition __initialize (NR_RESOURCES : nat) : sim :=
  Sim ∅ [] [] (replicate NR_RESOURCES (Resource None [])) None 0 (-1) [].

(** The record [__load_script] builds for one [process ... end] block:
    zeroed by [memset], then filled from the properties. *)
Definition new_process (id span pri start : nat) (plan : list resource_schedule)
  : process :=
  Process id PROCESS_READY 0 span pri pri start plan [].

(** [__load_script], after parsing: every block is allocated at a fresh
    address and appended to the fork queue. *)
Fixpoint load_from (a : ptr) (script : list process) (s : sim) : sim :=
  match script with
  | [] => s
  | p :: script' =>
      load_from (S a) script'
        (set_forkqueue (list_add_tail a (__forkqueue s)) (set_procs (insert a p) s))
  end.

Definition __load_script (script : list process) (s : sim) : sim :=
  load_from 0 script s.

(** The state in which [main] calls [__do_simulation]. *)
Definition boot (NR_RESOURCES : nat) (script : list process) : sim :=
  __load_script script (__initialize NR_RESOURCES).

(** The states at the head of the main loop: [reachable sched s0 s] when
    [s] is [s0] or follows it by rounds that stay in the loop. *)
Inductive reachable (sched : scheduler) (s0 : sim) : sim → Prop :=
| reachable_start : reachable sched s0 s0
| reachable_round s s' :
    reachable sched s0 s →
    round sched s = Ok (true, s') →
    reachable sched s0 s'.

(** ** Observations *)

(** The pids that ran, in order, with the tick of each run. *)
Definition runs (tr : list event) : list (Z * nat) :=
  omap (λ e, match e with EvRan t p => Some (t, p) | _ => None end) tr.

Definition is_release (e : event) : bool :=
  match e with EvReleased _ _ _ => true | _ => false end.

(** The state after [n] rounds of the loop, if none faulted. *)
Fixpoint after_rounds (sched : scheduler) (n : nat) (s : sim) : result (bool * sim) :=
  match n with
  | 0 => Ok (true, s)
  | S n' =>
      match after_rounds sched n' s with
      | Ok (true, s') => round sched s'
      | r => r
      end
  end.


(** ** A client of one resource

    To state the order in which the FCFS protocol serves a resource: a
    sequence of requests on resource [rid], each made by the process that
    is [current] at that moment.  [serve] reports the process the request
    blocked and the processes it moved to the ready queue. *)
Inductive request :=
| Acquire (c : ptr)     (* process [c] asks for the resource *)
| Release.              (* the owner gives it back *)

Definition serve (rid : Z) (req : request) : M (list ptr * list ptr) :=
  match req with
  | Acquire c =>
      modify (set_current (Some c));;
      let* ok := fcfs_acquire rid in
      ret (if ok then [] else [c], [])
  | Release =>
      let* r := resource_at rid in
      modify (set_current (owner r));;
      let* before := gets readyqueue in
      fcfs_release rid;;
      let* after := gets readyqueue in
      ret ([], drop (length before) after)
  end.

Fixpoint serve_all (rid : Z) (reqs : list request) : M (list ptr * list ptr) :=
  match reqs with
  | [] => ret ([], [])
  | req :: reqs' =>
      let* bw := serve rid req in
      let* bw' := serve_all rid reqs' in
      ret (bw.1 ++ bw'.1, bw.2 ++ bw'.2)
  end.

(** ** Vocabulary of the statements *)

(** Every pointer of [q] points to a record. *)
Definition live (s : sim) (q : list ptr) : Prop :=
  Forall (λ x, is_Some (procs s !! x)) q.

(** Fields read through a pointer. *)
Definition prio_of (s : sim) (x : ptr) : nat := default 0 (prio <$> procs s !! x).

Definition lifespan_of (s : sim) (x : ptr) : nat :=
  default 0 (lifespan <$> procs s !! x).

(** [n] is the first entry of [q] with the least [key]. *)
Definition first_least (key : ptr → nat) (q : list ptr) (n : ptr) : Prop :=
  ∃ pre post, q = pre ++ n :: post
              ∧ (∀ x, x ∈ pre → key n < key x)
              ∧ (∀ x, x ∈ post → key n ≤ key x).

(** [n] is the first entry of [q] with the greatest [key]. *)
Definition first_greatest (key : ptr → nat) (q : list ptr) (n : ptr) : Prop :=
  ∃ pre post, q = pre ++ n :: post
              ∧ (∀ x, x ∈ pre → key x < key n)
              ∧ (∀ x, x ∈ post → key x ≤ key n).

(** The first entry of [q] whose [key] is [v]. *)
Definition find_key (key : ptr → nat) (v : nat) (q : list ptr) : option ptr :=
  snd <$> list_find (λ x, key x = v) q.

(** The record a pass of the aging loop leaves of [p]: its priority one
    higher, unless it had reached [MAX_PRIO]. *)
Definition aged (MAX_PRIO : nat) (p : process) : process :=
  if prio p <? MAX_PRIO then set_prio (prio p + 1) p else p.

(** The records after every entry of [q] went through the aging loop. *)
Definition age_in (MAX_PRIO : nat) (q : list ptr) (m : gmap ptr process)
  : gmap ptr process :=
  foldl (λ m x, alter (aged MAX_PRIO) x m) m q.

(** The record of the process picked to run: priority back to baseline. *)
Definition rested (p : process) : process := set_prio (prio_orig p) p.

(** A computation keeps a relation between the state it starts in and the
    state it returns in. *)
Definition keeps {A} (Q : relation sim) (m : M A) : Prop :=
  ∀ s a s', m s = Ok (a, s') → Q s s'.

(** Every record of [s'] was already there in [s], related by [R]. *)
Definition evolves (R : relation process) (s s' : sim) : Prop :=
  ∀ x p', procs s' !! x = Some p' → ∃ p, procs s !! x = Some p ∧ R p p'.

(** The work of a process: what it is, how far it got, what it still has
    to acquire and what it holds. *)
Definition same_work (p p' : process) : Prop :=
  pid p' = pid p ∧ age p' = age p ∧ lifespan p' = lifespan p
  ∧ __resources_to_acquire p' = __resources_to_acquire p
  ∧ __resources_holding p' = __resources_holding p.

(** Nothing happened to the work of the processes, to the clock, to the
    trace and to [current]. *)
Definition undisturbed (s s' : sim) : Prop :=
  evolves same_work s s' ∧ ticks s' = ticks s ∧ trace s' = trace s
  ∧ current s' = current s.

(** Events of the fork and retire steps. *)
Definition housekeeping (e : event) : bool :=
  match e with
  | EvForked _ _ | EvExited _ _ => true
  | _ => false
  end.

(** As [undisturbed], but fork and exit events may have been logged and
    [current] may have changed. *)
Definition rearranged (s s' : sim) : Prop :=
  evolves same_work s s' ∧ ticks s' = ticks s
  ∧ ∃ evs, trace s' = trace s ++ evs ∧ Forall (λ e, housekeeping e = true) evs.


(** The trace only grew, by release events. *)
Definition only_releases (s s' : sim) : Prop :=
  ∃ evs, trace s' = trace s ++ evs ∧ Forall (λ e, is_release e = true) evs.

(** The entries of a plan that are due at age [a], and the others. *)
Definition due (a : nat) (rs : resource_schedule) : Prop := rs_at rs = Z.of_nat a.

Global Instance due_dec a rs : Decision (due a rs).
Proof. unfold due. apply _. Defined.

(** ** Well-formed queues *)

(** The rings are sound: no process is linked twice, neither into one
    queue nor into two, and every linked pointer points to a record. *)
Definition wf (s : sim) : Prop := NoDup (linked s) ∧ live s (linked s).

(** The place of [current] at the head of the main loop, under the default
    FCFS protocol: a record that is in neither the fork queue nor the ready
    queue and, unless it is blocked (WAITING), in no wait queue either. *)
Definition current_placed (s : sim) : Prop :=
  ∀ c, current s = Some c →
       ∃ p, procs s !! c = Some p
            ∧ (c ∉ __forkqueue s) ∧ (c ∉ readyqueue s)
            ∧ (status p ≠ PROCESS_WAIT → c ∉ waiters s).

(** The policies that use the default FCFS resource protocol. *)
Definition fcfs_policies : list scheduler :=
  [fifo_scheduler; sjf_scheduler; srtf_scheduler; rr_scheduler].

(** What a [schedule] function of an FCFS policy may do to the state: the
    records, the fork queue and the resources stay; the ready queue stays
    (the answer is then nothing, [current] again, or a process that is
    still in the ready queue), or loses the process picked, or loses it
    and gains the preempted [current]. *)
Definition sched_effect (s : sim) (next : option ptr) (s' : sim) : Prop :=
  procs s' = procs s ∧ __forkqueue s' = __forkqueue s ∧ resources s' = resources s
  ∧ current s' = current s ∧ ticks s' = ticks s ∧ trace s' = trace s
  ∧ ((readyqueue s' = readyqueue s
      ∧ (next = None
         ∨ (∃ c p, next = Some c ∧ current s = Some c ∧ procs s !! c = Some p
                   ∧ status p ≠ PROCESS_WAIT ∧ age p < lifespan p)
         ∨ (∃ n, next = Some n ∧ n ∈ readyqueue s)))
     ∨ (∃ n, next = Some n ∧ n ∈ readyqueue s
             ∧ readyqueue s' = list_del n (readyqueue s))
     ∨ (∃ n c p, next = Some n ∧ n ∈ readyqueue s
                 ∧ current s = Some c ∧ procs s !! c = Some p
                 ∧ status p ≠ PROCESS_WAIT ∧ age p < lifespan p
                 ∧ readyqueue s' ≡ₚ c :: list_del n (readyqueue s))).

(** A policy of the FCFS family: the default resource protocol, a
    [schedule] function with a [sched_effect], no hooks. *)
Definition fcfs_family (sched : scheduler) : Prop :=
  acquire sched = Some fcfs_acquire
  ∧ release sched = Some fcfs_release
  ∧ (∃ f, schedule sched = Some f
          ∧ ∀ s next s', f s = Ok (next, s') → sched_effect s next s')
  ∧ forked sched = None
  ∧ exiting sched = None.

(** The state while [current] (process [c], of lifespan [L]) executes its
    tick: it is RUNNING and detached. *)
Definition executing (c : ptr) (L : nat) (T TC : Z) (s : sim) : Prop :=
  wf s ∧ current s = Some c ∧ (c ∉ linked s)
  ∧ ticks s = T ∧ ticks_cnt s = TC
  ∧ ∃ p, procs s !! c = Some p ∧ status p = PROCESS_RUNNING ∧ lifespan p = L.

(** The state once [current] has been refused a resource: it is WAITING
    and in neither the fork queue nor the ready queue. *)
Definition refused (c : ptr) (L : nat) (T TC : Z) (s : sim) : Prop :=
  wf s ∧ current s = Some c ∧ (c ∉ __forkqueue s) ∧ (c ∉ readyqueue s)
  ∧ ticks s = T ∧ ticks_cnt s = TC
  ∧ ∃ p, procs s !! c = Some p ∧ status p = PROCESS_WAIT ∧ lifespan p = L.

(** ** Scenarios

    Scripts and states at which the statements below are instantiated. *)

(** The state a computation ended in ([s0] if it faulted). *)
Definition outcome {A} (r : result (A * sim)) (s0 : sim) : sim :=
  match r with
  | Ok (_, s) => s
  | Crash _ => s0
  end.








(** A process of lifespan 5, joined at tick 2 by one of lifespan 1. *)
Definition srtf_script : list process :=
  [new_process 1 5 0 0 []; new_process 2 1 0 2 []].

Definition srtf_at_2 : sim :=
  outcome (after_rounds srtf_scheduler 2 (boot 1 srtf_script)) (boot 1 srtf_script).

Definition srtf_forked : sim :=
  outcome (__fork_on_schedule srtf_scheduler srtf_at_2) srtf_at_2.

(** Two processes of lifespan 3 that start together. *)
Definition rr_script : list process :=
  [new_process 1 3 0 0 []; new_process 2 3 0 0 []].

Definition rr_at_1 : sim :=
  outcome (after_rounds rr_scheduler 1 (boot 1 rr_script)) (boot 1 rr_script).

Definition rr_forked : sim :=
  outcome (__fork_on_schedule rr_scheduler rr_at_1) rr_at_1.

(** A running process (at address 0) next to a second record (at address
    1), with the given ready queue and resource table. *)
Definition pair_state (p0 p1 : process) (rq : list ptr) (rs : list resource) : sim :=
  Sim (<[1 := p1]> {[0 := p0]}) rq [] rs (Some 0) 1 (-1) [].

(** * Properties *)

(** ** Computing in the monad *)

Lemma bind_ok {A B} (m : M A) (k : A → M B) s a s' :
  m s = Ok (a, s') → bind m k s = k a s'.
Proof. unfold bind. by intros ->. Qed.


Lemma bind_inv {A B} (m : M A) (k : A → M B) s b s'' :
  bind m k s = Ok (b, s'') →
  ∃ a s', m s = Ok (a, s') ∧ k a s' = Ok (b, s'').
Proof.
  unfold bind. destruct (m s) as [[a s']|f]; [|done]. intros H. by exists a, s'.
Qed.

Lemma deref_ok c p s : procs s !! c = Some p → deref c s = Ok (p, s).
Proof. unfold deref. by intros ->. Qed.

Lemma deref_inv c p s s' : deref c s = Ok (p, s') → procs s !! c = Some p ∧ s' = s.
Proof. unfold deref. destruct (procs s !! c); naive_solver. Qed.

Lemma update_ok c f p s :
  procs s !! c = Some p → update c f s = Ok (tt, set_procs (insert c (f p)) s).
Proof. unfold update. by intros ->. Qed.

Lemma update_inv c f u s s' :
  update c f s = Ok (u, s') →
  ∃ p, procs s !! c = Some p ∧ s' = set_procs (insert c (f p)) s.
Proof. unfold update. destruct (procs s !! c); naive_solver. Qed.

Lemma resource_at_ok rid r s :
  (0 ≤ rid)%Z → resources s !! Z.to_nat rid = Some r → resource_at rid s = Ok (r, s).
Proof.
  intros Hr Hl. unfold resource_at.
  destruct (Z.ltb_spec rid 0); [lia|]. by rewrite Hl.
Qed.

Lemma resource_at_inv rid r s s' :
  resource_at rid s = Ok (r, s') →
  (0 ≤ rid)%Z ∧ resources s !! Z.to_nat rid = Some r ∧ s' = s.
Proof.
  unfold resource_at. destruct (Z.ltb_spec rid 0); [done|].
  destruct (resources s !! Z.to_nat rid); naive_solver.
Qed.

Lemma list_del_head c q : list_del c (c :: q) = q.
Proof. simpl. by rewrite decide_True. Qed.

Ltac mred := cbv beta iota delta
  [bind ret gets modify crash assert nonnull print_event set_resource
   implemented call_hook detach_ready deref update resource_at].

Tactic Notation "mred" "in" hyp(H) := cbv beta iota delta
  [bind ret gets modify crash assert nonnull print_event set_resource
   implemented call_hook detach_ready deref update resource_at] in H.

(** Exposing the fields of a state built by the setters. *)
Ltac sim_unfold :=
  unfold set_procs, set_readyqueue, set_forkqueue, set_resources, set_current,
    set_ticks, set_ticks_cnt, add_event; simpl.

(** Running a computation whose reads are settled by the hypotheses. *)
Ltac mrun :=
  repeat first
    [ progress cbn [procs readyqueue __forkqueue resources current ticks ticks_cnt
                    trace set_procs set_readyqueue set_forkqueue set_resources
                    set_current set_ticks set_ticks_cnt add_event]
    | rewrite lookup_insert_eq
    | match goal with
      | H : procs ?s !! ?c = Some _ |- context [procs ?s !! ?c] => rewrite H
      | H : current ?s = _ |- context [current ?s] => rewrite H
      end ].

(** Inversion of a straight-line computation that returned. *)
Ltac minv H := mred in H; repeat (case_match; simplify_eq/=); simplify_eq/=.

(** ** The default FCFS protocol *)

Lemma serve_queue rid req s b w s' r :
  resources s !! Z.to_nat rid = Some r →
  serve rid req s = Ok ((b, w), s') →
  ∃ r', resources s' !! Z.to_nat rid = Some r' ∧
        waitqueue r ++ b = w ++ waitqueue r'.
Proof.
  intros Hr H. assert (Hlen := lookup_lt_Some _ _ _ Hr).
  destruct req as [c|]; unfold serve, fcfs_acquire, fcfs_release in H; minv H.
  all: eexists; (split; [apply list_lookup_insert_eq; by rewrite ?length_insert|]);
    simpl; unfold list_add_tail; rewrite ?app_nil_r, ?drop_app_length, ?drop_all;
    try done.
Qed.

Lemma serve_all_queue rid reqs s b w s' r :
  resources s !! Z.to_nat rid = Some r →
  serve_all rid reqs s = Ok ((b, w), s') →
  ∃ r', resources s' !! Z.to_nat rid = Some r' ∧
        waitqueue r ++ b = w ++ waitqueue r'.
Proof.
  revert s b w r. induction reqs as [|req reqs IH]; intros s b w r Hr H; simpl in H.
  - minv H. exists r. split; [done|]. by rewrite ?app_nil_r.
  - apply bind_inv in H as ([b1 w1] & s1 & H1 & H).
    apply bind_inv in H as ([b2 w2] & s2 & H2 & H).
    minv H.
    destruct (serve_queue _ _ _ _ _ _ _ Hr H1) as (r1 & Hr1 & E1).
    destruct (IH _ _ _ _ Hr1 H2) as (r2 & Hr2 & E2).
    exists r2. split; [done|].
    by rewrite app_assoc, E1, <- app_assoc, E2, app_assoc.
Qed.

(** C3.  The default FCFS protocol.  [fcfs_acquire] on a free resource
    makes the caller the owner and returns true; on an owned resource it
    marks the caller WAITING, appends it to the tail of the wait queue and
    returns false.  [fcfs_release] asserts that the caller is the owner,
    clears the ownership and, when the wait queue is not empty, takes its
    first entry (which must be WAITING) out of it, marks it READY and
    appends it to the ready queue.  Hence, over any sequence of requests
    on a resource, the processes woken are, in order, the first of those
    that waited. *)
Theorem fcfs_protocol (s : sim) (rid : Z) (r : resource) (c : ptr) (p : process) :
  (0 ≤ rid)%Z →
  resources s !! Z.to_nat rid = Some r →
  current s = Some c →
  procs s !! c = Some p →
  (owner r = None →
     fcfs_acquire rid s =
       Ok (true, set_resources (<[Z.to_nat rid := Resource (Some c) (waitqueue r)]>) s))
  ∧ (is_Some (owner r) →
     fcfs_acquire rid s =
       Ok (false,
           set_resources (<[Z.to_nat rid := Resource (owner r) (waitqueue r ++ [c])]>)
             (set_procs (<[c := set_status PROCESS_WAIT p]>) s)))
  ∧ (owner r ≠ Some c → fcfs_release rid s = Crash AssertOwner)
  ∧ (owner r = Some c → waitqueue r = [] →
     fcfs_release rid s =
       Ok (tt, set_resources (<[Z.to_nat rid := Resource None []]>) s))
  ∧ (∀ w ws pw,
       owner r = Some c → waitqueue r = w :: ws → procs s !! w = Some pw →
       fcfs_release rid s =
         if bool_decide (status pw = PROCESS_WAIT) then
           Ok (tt,
               set_readyqueue (readyqueue s ++ [w])
                 (set_procs (<[w := set_status PROCESS_READY pw]>)
                    (set_resources (<[Z.to_nat rid := Resource None ws]>) s)))
         else Crash AssertWaiterStatus)
  ∧ (∀ reqs blocked woken s',
       serve_all rid reqs s = Ok ((blocked, woken), s') →
       ∃ r', resources s' !! Z.to_nat rid = Some r' ∧
             waitqueue r ++ blocked = woken ++ waitqueue r').
Proof.
  intros Hrid Hr Hc Hp.
  assert (Hat := resource_at_ok _ _ _ Hrid Hr).
  repeat split.
  - intros Ho. unfold fcfs_acquire. rewrite (bind_ok _ _ _ _ _ Hat), Ho.
    mred. by rewrite Hc.
  - intros [o Ho]. unfold fcfs_acquire. rewrite (bind_ok _ _ _ _ _ Hat), Ho.
    mred. by rewrite Hc, Hp.
  - intros Ho. unfold fcfs_release. rewrite (bind_ok _ _ _ _ _ Hat).
    mred. rewrite Hc. by rewrite bool_decide_false.
  - intros Ho Hw. unfold fcfs_release. rewrite (bind_ok _ _ _ _ _ Hat).
    mred. rewrite Hc, bool_decide_true by done. by rewrite Hw.
  - intros w ws pw Ho Hw Hpw. unfold fcfs_release.
    rewrite (bind_ok _ _ _ _ _ Hat).
    mred. rewrite Hc, bool_decide_true by done. rewrite Hw. simpl. rewrite Hpw.
    case_bool_decide; [|done].
    simpl. rewrite Hpw. rewrite decide_True by done.
    sim_unfold. by rewrite list_insert_insert_eq.
  - intros reqs blocked woken s'. by apply serve_all_queue.
Qed.

(** ** The scanning loops *)

Lemma prio_of_eq s x p : procs s !! x = Some p → prio_of s x = prio p.
Proof. unfold prio_of. by intros ->. Qed.

Lemma lifespan_of_eq s x p : procs s !! x = Some p → lifespan_of s x = lifespan p.
Proof. unfold lifespan_of. by intros ->. Qed.

Lemma max_prio_spec s q m :
  live s q → max_prio m q s = Ok (foldl Nat.max m (prio_of s <$> q), s).
Proof.
  revert m. induction q as [|x q IH]; intros m Hl; [done|].
  apply Forall_cons in Hl as [[p Hp] Hl]. simpl.
  rewrite (bind_ok _ _ _ _ _ (deref_ok _ _ _ Hp)), (IH _ Hl).
  rewrite (prio_of_eq _ _ _ Hp). do 3 f_equal.
  destruct (Nat.ltb_spec m (prio p)); lia.
Qed.

Lemma min_lifespan_spec s q m :
  live s q → min_lifespan m q s = Ok (foldl Nat.min m (lifespan_of s <$> q), s).
Proof.
  revert m. induction q as [|x q IH]; intros m Hl; [done|].
  apply Forall_cons in Hl as [[p Hp] Hl]. simpl.
  rewrite (bind_ok _ _ _ _ _ (deref_ok _ _ _ Hp)), (IH _ Hl).
  rewrite (lifespan_of_eq _ _ _ Hp). do 3 f_equal.
  destruct (Nat.ltb_spec (lifespan p) m); lia.
Qed.

Lemma find_prio_spec s q v :
  live s q → find_prio v q s = Ok (find_key (prio_of s) v q, s).
Proof.
  unfold find_key. induction q as [|x q IH]; intros Hl; [done|].
  apply Forall_cons in Hl as [[p Hp] Hl]. simpl.
  rewrite (bind_ok _ _ _ _ _ (deref_ok _ _ _ Hp)), (prio_of_eq _ _ _ Hp).
  destruct (Nat.eqb_spec (prio p) v).
  - by rewrite decide_True.
  - rewrite decide_False by done. rewrite (IH Hl).
    by destruct (list_find _ q) as [[??]|].
Qed.

Lemma find_lifespan_spec s q v :
  live s q → find_lifespan v q s = Ok (find_key (lifespan_of s) v q, s).
Proof.
  unfold find_key. induction q as [|x q IH]; intros Hl; [done|].
  apply Forall_cons in Hl as [[p Hp] Hl]. simpl.
  rewrite (bind_ok _ _ _ _ _ (deref_ok _ _ _ Hp)), (lifespan_of_eq _ _ _ Hp).
  destruct (Nat.eqb_spec v (lifespan p)).
  - by rewrite decide_True.
  - rewrite decide_False by done. rewrite (IH Hl).
    by destruct (list_find _ q) as [[??]|].
Qed.

(** Arithmetic of the running extremum. *)
Lemma foldl_max_ge m l : m ≤ foldl Nat.max m l.
Proof. revert m. induction l as [|a l IH]; intros m; simpl; [lia|]. specialize (IH (m `max` a)). lia. Qed.

Lemma foldl_max_elem m l a : a ∈ l → a ≤ foldl Nat.max m l.
Proof.
  revert m. induction l as [|b l IH]; intros m Ha; [by apply elem_of_nil in Ha|].
  apply elem_of_cons in Ha as [->|Ha]; simpl.
  - pose proof (foldl_max_ge (m `max` b) l). lia.
  - by apply IH.
Qed.

Lemma foldl_max_in m l : foldl Nat.max m l = m ∨ foldl Nat.max m l ∈ l.
Proof.
  revert m. induction l as [|b l IH]; intros m; simpl; [by left|].
  destruct (IH (m `max` b)) as [E|E].
  - rewrite E. destruct (Nat.max_spec m b) as [[_ ->]|[_ ->]]; [right; left|by left].
  - right. by right.
Qed.

Lemma foldl_min_le m l : foldl Nat.min m l ≤ m.
Proof. revert m. induction l as [|a l IH]; intros m; simpl; [lia|]. specialize (IH (m `min` a)). lia. Qed.

Lemma foldl_min_elem m l a : a ∈ l → foldl Nat.min m l ≤ a.
Proof.
  revert m. induction l as [|b l IH]; intros m Ha; [by apply elem_of_nil in Ha|].
  apply elem_of_cons in Ha as [->|Ha]; simpl.
  - pose proof (foldl_min_le (m `min` b) l). lia.
  - by apply IH.
Qed.

Lemma foldl_min_in m l : foldl Nat.min m l = m ∨ foldl Nat.min m l ∈ l.
Proof.
  revert m. induction l as [|b l IH]; intros m; simpl; [by left|].
  destruct (IH (m `min` b)) as [E|E].
  - rewrite E. destruct (Nat.min_spec m b) as [[_ ->]|[_ ->]]; [by left|right; left].
  - right. by right.
Qed.

(** The entry found for the extremum is the first extremal one. *)
Lemma find_key_split key v q n :
  find_key key v q = Some n →
  ∃ pre post, q = pre ++ n :: post ∧ key n = v ∧ ∀ x, x ∈ pre → key x ≠ v.
Proof.
  unfold find_key. destruct (list_find _ q) as [[i y]|] eqn:E; [|done].
  intros [= ->]. apply list_find_Some in E as (Hi & Hv & Hpre).
  exists (take i q), (drop (S i) q). split; [|split; [done|]].
  - by rewrite <- (take_drop_middle _ _ _ Hi) at 1.
  - intros x Hx. apply list_elem_of_lookup in Hx as [j Hj].
    assert (j < i) by (apply lookup_lt_Some in Hj; rewrite length_take in Hj; lia).
    rewrite lookup_take_lt in Hj by done. by eapply Hpre.
Qed.

Lemma find_key_None key v q :
  find_key key v q = None ↔ ∀ x, x ∈ q → key x ≠ v.
Proof.
  unfold find_key. destruct (list_find _ q) as [[i y]|] eqn:E.
  - split; [done|]. intros H. apply list_find_Some in E as (Hi & Hv & _).
    destruct (H y); [by eapply list_elem_of_lookup_2|done].
  - split; [|done]. intros _. rewrite list_find_None in E.
    rewrite Forall_forall in E. done.
Qed.

Lemma find_key_greatest key q :
  q ≠ [] →
  ∃ n, find_key key (foldl Nat.max 0 (key <$> q)) q = Some n ∧ first_greatest key q n.
Proof.
  intros Hq. set (v := foldl Nat.max 0 (key <$> q)).
  assert (Hle : ∀ x, x ∈ q → key x ≤ v).
  { intros x Hx. apply foldl_max_elem. by apply list_elem_of_fmap_2. }
  assert (Hex : ∃ x, x ∈ q ∧ key x = v).
  { destruct (foldl_max_in 0 (key <$> q)) as [E|E].
    - destruct q as [|x q]; [done|]. exists x. split; [by left|].
      specialize (Hle x ltac:(by left)). fold v in E. lia.
    - apply list_elem_of_fmap in E as (x & E & Hx). by exists x. }
  destruct (find_key key v q) as [n|] eqn:E.
  - exists n. split; [done|]. apply find_key_split in E as (pre & post & -> & Hn & Hpre).
    exists pre, post. split; [done|]. split.
    + intros x Hx. specialize (Hpre x Hx).
      specialize (Hle x ltac:(rewrite elem_of_app; by left)). lia.
    + intros x Hx. rewrite Hn. apply Hle. rewrite elem_of_app, elem_of_cons. auto.
  - rewrite find_key_None in E. destruct Hex as (x & Hx & Hv). by destruct (E x).
Qed.

Lemma find_key_least key q m :
  (∃ x, x ∈ q ∧ key x ≤ m) →
  ∃ n, find_key key (foldl Nat.min m (key <$> q)) q = Some n ∧ first_least key q n.
Proof.
  intros (x0 & Hx0 & Hk0). set (v := foldl Nat.min m (key <$> q)).
  assert (Hle : ∀ x, x ∈ q → v ≤ key x).
  { intros x Hx. apply foldl_min_elem. by apply list_elem_of_fmap_2. }
  assert (Hex : ∃ x, x ∈ q ∧ key x = v).
  { destruct (foldl_min_in m (key <$> q)) as [E|E].
    - exists x0. split; [done|]. specialize (Hle x0 Hx0). fold v in E. lia.
    - apply list_elem_of_fmap in E as (x & E & Hx). by exists x. }
  destruct (find_key key v q) as [n|] eqn:E.
  - exists n. split; [done|]. apply find_key_split in E as (pre & post & -> & Hn & Hpre).
    exists pre, post. split; [done|]. split.
    + intros x Hx. specialize (Hpre x Hx).
      specialize (Hle x ltac:(rewrite elem_of_app; by left)). lia.
    + intros x Hx. rewrite Hn. apply Hle. rewrite elem_of_app, elem_of_cons. auto.
  - rewrite find_key_None in E. destruct Hex as (x & Hx & Hv). by destruct (E x).
Qed.

(** ** Waking the highest-priority waiter *)

Lemma live_set_procs_insert s q x p :
  live s q → live (set_procs (<[x := p]>) s) q.
Proof.
  unfold live. intros H. eapply Forall_impl; [exact H|]. intros y [py Hy]. simpl.
  destruct (decide (x = y)) as [->|].
  - rewrite lookup_insert_eq. eauto.
  - rewrite lookup_insert_ne by done. eauto.
Qed.

Lemma wake_highest_none rid r s :
  waitqueue r = [] → wake_highest rid r s = Ok (tt, s).
Proof. unfold wake_highest. by intros ->. Qed.

Lemma wake_highest_some rid r s :
  waitqueue r ≠ [] → live s (waitqueue r) →
  ∃ w pw,
    first_greatest (prio_of s) (waitqueue r) w
    ∧ procs s !! w = Some pw
    ∧ wake_highest rid r s =
        if bool_decide (status pw = PROCESS_WAIT) then
          Ok (tt,
              set_readyqueue (readyqueue s ++ [w])
                (set_procs (<[w := set_status PROCESS_READY pw]>)
                   (set_resources
                      (<[Z.to_nat rid := Resource None (list_del w (waitqueue r))]>) s)))
        else Crash AssertWaiterStatus.
Proof.
  intros Hne Hlive.
  destruct (find_key_greatest (prio_of s) _ Hne) as (w & Hfind & Hfirst).
  assert (Hw : w ∈ waitqueue r).
  { destruct Hfirst as (pre & post & -> & _). rewrite elem_of_app, elem_of_cons. auto. }
  unfold live in Hlive. rewrite Forall_forall in Hlive.
  destruct (Hlive w Hw) as [pw Hpw].
  exists w, pw. split; [done|]. split; [done|].
  unfold wake_highest. destruct (waitqueue r) as [|x q] eqn:Eq; [done|].
  rewrite (bind_ok _ _ _ _ _ (max_prio_spec s (x :: q) 0 ltac:(by apply Forall_forall))).
  rewrite (bind_ok _ _ _ _ _ (find_prio_spec s (x :: q) _ ltac:(by apply Forall_forall))).
  rewrite Hfind. mred. rewrite Hpw.
  case_bool_decide; [|done]. cbn [procs set_resources]. by rewrite Hpw.
Qed.

(** [pcp_release] and [pip_release] have the same body: the priority of
    the owner goes back to its original value, the ownership is cleared
    and the highest-priority waiter is woken. *)
Lemma pcp_release_spec (s : sim) (rid : Z) (r : resource) (c : ptr) (p : process) :
  (0 ≤ rid)%Z →
  resources s !! Z.to_nat rid = Some r →
  current s = Some c →
  procs s !! c = Some p →
  owner r = Some c →
  let s1 := set_procs (<[c := set_prio (prio_orig p) p]>) s in
  (waitqueue r = [] →
   pcp_release rid s =
     Ok (tt, set_resources (<[Z.to_nat rid := Resource None []]>) s1))
  ∧ (waitqueue r ≠ [] → live s (waitqueue r) →
     ∃ w pw,
       first_greatest (prio_of s1) (waitqueue r) w
       ∧ procs s1 !! w = Some pw
       ∧ pcp_release rid s =
           if bool_decide (status pw = PROCESS_WAIT) then
             Ok (tt,
                 set_readyqueue (readyqueue s ++ [w])
                   (set_procs (<[w := set_status PROCESS_READY pw]>)
                      (set_resources
                         (<[Z.to_nat rid := Resource None (list_del w (waitqueue r))]>)
                         s1)))
           else Crash AssertWaiterStatus).
Proof.
  intros Hrid Hr Hc Hp Ho s1.
  assert (Hat := resource_at_ok _ _ _ Hrid Hr).
  assert (E : pcp_release rid s =
    (set_resource rid (Resource None (waitqueue r));; wake_highest rid r) s1).
  { unfold pcp_release. rewrite (bind_ok _ _ _ _ _ Hat).
    unfold bind at 1, gets at 1. rewrite Hc, Ho, bool_decide_true by done.
    unfold assert, reset_prio. mred. by rewrite Hp, Hp. }
  split.
  - intros Hw. rewrite E. unfold bind, set_resource, modify.
    rewrite wake_highest_none by done. by rewrite Hw.
  - intros Hne Hlive. rewrite E. unfold bind, set_resource, modify.
    destruct (wake_highest_some rid r
                (set_resources (<[Z.to_nat rid:=Resource None (waitqueue r)]>) s1)
                Hne) as (w & pw & Hfirst & Hpw & ->).
    { subst s1. by apply live_set_procs_insert. }
    exists w, pw. split; [done|]. split; [done|].
    case_bool_decide; [|done]. sim_unfold. by rewrite list_insert_insert_eq.
Qed.

(** C9.  The priority-inheritance protocol.  A failed [pip_acquire] raises
    the priority of the owner to that of the blocked caller when it is
    strictly lower, and touches no process other than the owner and the
    caller.  [pip_release] restores the original priority of the owner
    whatever it is, clears the ownership and then wakes the first waiter
    of greatest priority (which must be WAITING): it leaves the wait
    queue, becomes READY and joins the tail of the ready queue. *)
Theorem pip_protocol (s : sim) (rid : Z) (r : resource) (c : ptr) (p : process) :
  (0 ≤ rid)%Z →
  resources s !! Z.to_nat rid = Some r →
  current s = Some c →
  procs s !! c = Some p →
  (∀ o po,
     owner r = Some o → procs s !! o = Some po →
     ∃ s',
       pip_acquire rid s = Ok (false, s')
       ∧ resources s' =
           <[Z.to_nat rid := Resource (Some o) (waitqueue r ++ [c])]> (resources s)
       ∧ procs s' !! c = Some (set_status PROCESS_WAIT p)
       ∧ (o ≠ c →
          procs s' !! o =
            Some (if prio po <? prio p then set_prio (prio p) po else po))
       ∧ (∀ x, x ≠ o → x ≠ c → procs s' !! x = procs s !! x)
       ∧ readyqueue s' = readyqueue s)
  ∧ (owner r = Some c →
     let s1 := set_procs (<[c := set_prio (prio_orig p) p]>) s in
     (waitqueue r = [] →
      pip_release rid s =
        Ok (tt, set_resources (<[Z.to_nat rid := Resource None []]>) s1))
     ∧ (waitqueue r ≠ [] → live s (waitqueue r) →
        ∃ w pw,
          first_greatest (prio_of s1) (waitqueue r) w
          ∧ procs s1 !! w = Some pw
          ∧ pip_release rid s =
              if bool_decide (status pw = PROCESS_WAIT) then
                Ok (tt,
                    set_readyqueue (readyqueue s ++ [w])
                      (set_procs (<[w := set_status PROCESS_READY pw]>)
                         (set_resources
                            (<[Z.to_nat rid := Resource None (list_del w (waitqueue r))]>)
                            s1)))
              else Crash AssertWaiterStatus)).
Proof.
  intros Hrid Hr Hc Hp.
  assert (Hat := resource_at_ok _ _ _ Hrid Hr).
  split.
  - intros o po Ho Hpo. unfold pip_acquire.
    rewrite (bind_ok _ _ _ _ _ Hat), Ho. mred. rewrite Hpo, Hc, Hp.
    destruct (Nat.ltb_spec (prio po) (prio p)) as [Hlt|Hge].
    + assert (o ≠ c) by (intros ->; simplify_eq; lia).
      rewrite Hpo. cbn [procs set_procs].
      rewrite lookup_insert_ne, Hp by done.
      eexists. split; [done|]. sim_unfold.
      rewrite lookup_insert_eq. repeat split; try done.
      * intros _. rewrite lookup_insert_ne by done. by rewrite lookup_insert_eq.
      * intros x ??. by rewrite !lookup_insert_ne.
    + rewrite Hp. eexists. split; [done|]. sim_unfold.
      rewrite lookup_insert_eq. repeat split; try done.
      * intros ?. by rewrite lookup_insert_ne.
      * intros x ??. by rewrite lookup_insert_ne.
  - intros Ho. by apply (pcp_release_spec s rid r c p).
Qed.

(** ** The priority-ceiling protocol *)

Lemma max_prio_state m q s v s' : max_prio m q s = Ok (v, s') → s' = s.
Proof.
  revert m. induction q as [|x q IH]; intros m H; simpl in H; [by minv H|].
  apply bind_inv in H as (p & s1 & H1 & H). apply deref_inv in H1 as [_ ->]. eauto.
Qed.

Lemma min_lifespan_state m q s v s' : min_lifespan m q s = Ok (v, s') → s' = s.
Proof.
  revert m. induction q as [|x q IH]; intros m H; simpl in H; [by minv H|].
  apply bind_inv in H as (p & s1 & H1 & H). apply deref_inv in H1 as [_ ->]. eauto.
Qed.

Lemma find_prio_state m q s v s' : find_prio m q s = Ok (v, s') → s' = s.
Proof.
  induction q as [|x q IH]; intros H; simpl in H; [by minv H|].
  apply bind_inv in H as (p & s1 & H1 & H). apply deref_inv in H1 as [_ ->].
  destruct (prio p =? m); [by minv H|eauto].
Qed.

Lemma find_lifespan_state m q s v s' : find_lifespan m q s = Ok (v, s') → s' = s.
Proof.
  induction q as [|x q IH]; intros H; simpl in H; [by minv H|].
  apply bind_inv in H as (p & s1 & H1 & H). apply deref_inv in H1 as [_ ->].
  destruct (m =? lifespan p); [by minv H|eauto].
Qed.

Lemma pcp_select_state m flag next q s v s' :
  pcp_select m flag next q s = Ok (v, s') → s' = s.
Proof.
  revert flag next. induction q as [|x q IH]; intros flag next H; simpl in H;
    [by minv H|].
  apply bind_inv in H as (p & s1 & H1 & H). apply deref_inv in H1 as [_ ->].
  destruct ((m =? prio p) && negb flag); eauto.
Qed.

(** Forgetting the intermediate states of loops that only read. *)
Ltac pure_loops :=
  repeat match goal with
  | H : max_prio _ _ _ = Ok (_, _) |- _ => apply max_prio_state in H; subst
  | H : min_lifespan _ _ _ = Ok (_, _) |- _ => apply min_lifespan_state in H; subst
  | H : find_prio _ _ _ = Ok (_, _) |- _ => apply find_prio_state in H; subst
  | H : find_lifespan _ _ _ = Ok (_, _) |- _ => apply find_lifespan_state in H; subst
  | H : pcp_select _ _ _ _ _ = Ok (_, _) |- _ => apply pcp_select_state in H; subst
  end.



(** ** Retiring the previous process *)

Lemma retire_stays sched s c p :
  procs s !! c = Some p →
  age p ≠ lifespan p →
  retire sched (Some c) s =
    Ok (tt, if bool_decide (status p = PROCESS_RUNNING)
            then set_procs (<[c := set_status PROCESS_READY p]>) s else s).
Proof.
  intros Hp Hage. unfold retire. mred. mrun.
  case_bool_decide; mrun; simpl;
    by destruct (Nat.eqb_spec (age p) (lifespan p)).
Qed.

Lemma detached_set_procs c f s : detached c (set_procs f s) = detached c s.
Proof. done. Qed.



Lemma retire_frame sched prev s s' :
  exiting sched = None →
  retire sched prev s = Ok (tt, s') →
  readyqueue s' = readyqueue s ∧ __forkqueue s' = __forkqueue s
  ∧ resources s' = resources s ∧ current s' = current s
  ∧ ticks s' = ticks s ∧ ticks_cnt s' = ticks_cnt s
  ∧ (∀ x, x ∈ linked s → is_Some (procs s !! x) → is_Some (procs s' !! x))
  ∧ (∀ x, prev ≠ Some x → procs s' !! x = procs s !! x).
Proof.
  intros Hhook H. unfold retire, __exit_process in H. rewrite Hhook in H.
  destruct prev as [c|]; minv H; repeat split; try done.
  all: try (intros x Hx [px Hpx]; destruct (decide (x = c)) as [->|];
            [rewrite ?lookup_insert_eq|rewrite ?lookup_insert_ne by done]; by eauto).
  all: try (intros x Hx; assert (c ≠ x) by congruence;
            by rewrite ?lookup_delete_ne, ?lookup_insert_ne by done).
  all: intros x Hx [px Hpx];
    match goal with H : detached _ _ = true |- _ =>
      unfold detached in H; apply bool_decide_eq_true in H end;
    assert (c ≠ x) by (intros ->; done);
    rewrite lookup_delete_ne, !lookup_insert_ne by done; eauto.
Qed.



(** ** SJF and the sentinel 1000 *)




(** ** Frames *)

Section keeps.
Context (Q : relation sim) `{!PreOrder Q}.

Lemma keeps_ret {A} (a : A) : keeps Q (ret a).
Proof. intros s b s' [= _ <-]. reflexivity. Qed.

Lemma keeps_bind {A B} (m : M A) (k : A → M B) :
  keeps Q m → (∀ a, keeps Q (k a)) → keeps Q (bind m k).
Proof.
  intros Hm Hk s b s'' H. apply bind_inv in H as (a & s' & H1 & H2).
  etransitivity; [by eapply Hm|by eapply Hk].
Qed.

Lemma keeps_gets {A} (f : sim → A) : keeps Q (gets f).
Proof. intros s b s' [= _ <-]. reflexivity. Qed.

Lemma keeps_crash {A} f : keeps Q (@crash A f).
Proof. intros s b s' [=]. Qed.

Lemma keeps_assert b f : keeps Q (assert b f).
Proof. destruct b; [apply keeps_ret|apply keeps_crash]. Qed.

Lemma keeps_nonnull o : keeps Q (nonnull o).
Proof. destruct o; [apply keeps_ret|apply keeps_crash]. Qed.

Lemma keeps_implemented {A} (o : option A) : keeps Q (implemented o).
Proof. destruct o; [apply keeps_ret|apply keeps_crash]. Qed.

Lemma keeps_deref c : keeps Q (deref c).
Proof. intros s p s' H. apply deref_inv in H as [_ ->]. reflexivity. Qed.

Lemma keeps_resource_at rid : keeps Q (resource_at rid).
Proof. intros s p s' H. apply resource_at_inv in H as (_ & _ & ->). reflexivity. Qed.

Lemma keeps_modify f : (∀ s, Q s (f s)) → keeps Q (modify f).
Proof. intros Hf s [] s' [= <-]. apply Hf. Qed.

Lemma keeps_update c f :
  (∀ s p, procs s !! c = Some p → Q s (set_procs (<[c := f p]>) s)) →
  keeps Q (update c f).
Proof. intros Hf s [] s' H. apply update_inv in H as (p & Hp & ->). by apply Hf. Qed.
End keeps.


Global Instance same_work_preorder : PreOrder same_work.
Proof.
  split.
  - by intros p.
  - intros p1 p2 p3 (?&?&?&?&?) (?&?&?&?&?). unfold same_work. repeat split; congruence.
Qed.

Global Instance evolves_preorder R `{!PreOrder R} : PreOrder (evolves R).
Proof.
  split.
  - intros s x p Hp. exists p. split; [done|reflexivity].
  - intros s1 s2 s3 H12 H23 x p3 Hp3.
    destruct (H23 _ _ Hp3) as (p2 & Hp2 & R23).
    destruct (H12 _ _ Hp2) as (p1 & Hp1 & R12).
    exists p1. split; [done|by etransitivity].
Qed.

Global Instance undisturbed_preorder : PreOrder undisturbed.
Proof.
  split.
  - intros s. repeat split; [reflexivity|done..].
  - intros s1 s2 s3 (?&?&?&?) (?&?&?&?). repeat split; [by etransitivity|congruence..].
Qed.

Global Instance rearranged_preorder : PreOrder rearranged.
Proof.
  split.
  - intros s. split; [reflexivity|]. split; [done|]. exists []. by rewrite app_nil_r.
  - intros s1 s2 s3 (?&?&e1&E1&F1) (?&?&e2&E2&F2).
    split; [by etransitivity|]. split; [congruence|].
    exists (e1 ++ e2). rewrite E2, E1, <- app_assoc. split; [done|].
    by apply Forall_app.
Qed.


Lemma evolves_insert R `{!PreOrder R} s c p p' :
  procs s !! c = Some p → R p p' → evolves R s (set_procs (<[c := p']>) s).
Proof.
  intros Hp HR x q. simpl. destruct (decide (c = x)) as [<-|].
  - rewrite lookup_insert_eq. intros [= <-]. by exists p.
  - rewrite lookup_insert_ne by done. intros Hq. exists q. split; [done|reflexivity].
Qed.


Lemma undisturbed_update c f :
  (∀ p, same_work p (f p)) → keeps undisturbed (update c f).
Proof.
  intros Hf. apply keeps_update. intros s p Hp.
  repeat split; try done. by apply (evolves_insert _ _ _ p).
Qed.

Lemma undisturbed_modify f :
  (∀ s, procs (f s) = procs s ∧ ticks (f s) = ticks s ∧ trace (f s) = trace s
        ∧ current (f s) = current s) →
  keeps undisturbed (modify f).
Proof.
  intros Hf. apply keeps_modify. intros s.
  destruct (Hf s) as (Ep & ? & ? & ?). repeat split; try done.
  intros x p. rewrite Ep. intros Hx. exists p. split; [done|reflexivity].
Qed.

(** Structural decomposition of a frame goal. *)
Ltac keeps_go :=
  cbv zeta;
  repeat first
    [ assumption
    | apply keeps_ret; apply _
    | apply keeps_gets; apply _
    | apply keeps_crash
    | apply keeps_assert; apply _
    | apply keeps_nonnull; apply _
    | apply keeps_implemented; apply _
    | apply keeps_deref; apply _
    | apply keeps_resource_at; apply _
    | apply undisturbed_update; done
    | apply undisturbed_modify; done
    | apply keeps_bind; [apply _| |intros ?]
    | match goal with
      | |- keeps _ (match ?x with _ => _ end) => destruct x
      end
    | solve [eauto with keeps] ].

Create HintDb keeps.



Lemma keeps_pure {A} (Q : relation sim) `{!PreOrder Q} (m : M A) :
  (∀ s a s', m s = Ok (a, s') → s' = s) → keeps Q m.
Proof. intros Hm s a s' H. rewrite (Hm _ _ _ H). reflexivity. Qed.

Lemma max_prio_keeps Q `{!PreOrder Q} m q : keeps Q (max_prio m q).
Proof. apply keeps_pure; [apply _|]. intros ???. apply max_prio_state. Qed.

Lemma min_lifespan_keeps Q `{!PreOrder Q} m q : keeps Q (min_lifespan m q).
Proof. apply keeps_pure; [apply _|]. intros ???. apply min_lifespan_state. Qed.

Lemma find_prio_keeps Q `{!PreOrder Q} m q : keeps Q (find_prio m q).
Proof. apply keeps_pure; [apply _|]. intros ???. apply find_prio_state. Qed.

Lemma find_lifespan_keeps Q `{!PreOrder Q} m q : keeps Q (find_lifespan m q).
Proof. apply keeps_pure; [apply _|]. intros ???. apply find_lifespan_state. Qed.

Lemma pcp_select_keeps Q `{!PreOrder Q} m flag next q :
  keeps Q (pcp_select m flag next q).
Proof. apply keeps_pure; [apply _|]. intros ???. apply pcp_select_state. Qed.

Lemma current_has_lifetime_keeps Q `{!PreOrder Q} : keeps Q current_has_lifetime.
Proof. unfold current_has_lifetime. keeps_go. Qed.

Global Hint Resolve max_prio_keeps min_lifespan_keeps find_prio_keeps
  find_lifespan_keeps pcp_select_keeps current_has_lifetime_keeps : keeps.
Global Hint Extern 1 (PreOrder _) => apply _ : keeps.




Lemma wake_highest_undisturbed rid r : keeps undisturbed (wake_highest rid r).
Proof. unfold wake_highest, set_resource. keeps_go. Qed.

Global Hint Resolve wake_highest_undisturbed : keeps.


Lemma reset_prio_undisturbed c : keeps undisturbed (reset_prio c).
Proof. unfold reset_prio. keeps_go. Qed.

Global Hint Resolve reset_prio_undisturbed : keeps.








Lemma age_prio_undisturbed MAX_PRIO c : keeps undisturbed (age_prio MAX_PRIO c).
Proof. unfold age_prio. keeps_go. Qed.

Global Hint Resolve age_prio_undisturbed : keeps.

Lemma age_all_undisturbed MAX_PRIO q : keeps undisturbed (age_all MAX_PRIO q).
Proof. induction q; simpl; keeps_go. Qed.

Lemma pa_select_undisturbed MAX_PRIO m flag next q :
  keeps undisturbed (pa_select MAX_PRIO m flag next q).
Proof. revert flag next. induction q; intros; simpl; keeps_go. Qed.

Global Hint Resolve age_all_undisturbed pa_select_undisturbed : keeps.




Lemma evolves_same_procs R `{!PreOrder R} s s' :
  procs s' = procs s → evolves R s s'.
Proof. intros E x p. rewrite E. intros Hp. exists p. split; [done|reflexivity]. Qed.



Lemma rearranged_set_current c : keeps rearranged (modify (set_current c)).
Proof.
  apply keeps_modify. intros s. split; [by apply evolves_same_procs; [apply _|]|].
  split; [done|]. exists []. by rewrite app_nil_r.
Qed.





(** ** The acquisition loop *)




(** ** The release loop only logs releases *)

Global Instance only_releases_preorder : PreOrder only_releases.
Proof.
  split.
  - intros s. exists []. by rewrite app_nil_r.
  - intros s1 s2 s3 (e1&E1&F1) (e2&E2&F2).
    exists (e1 ++ e2). rewrite E2, E1, <- app_assoc. split; [done|].
    by apply Forall_app.
Qed.





(** ** A round in which an acquisition fails *)




(** ** Queues as sequences *)

Lemma list_del_elem_of c q x : x ∈ list_del c q → x ∈ q.
Proof.
  induction q as [|y q IH]; simpl; [done|].
  destruct (decide (y = c)) as [->|Hne]; rewrite elem_of_cons; [by right|].
  rewrite elem_of_cons. intros [->|Hx]; [by left|right; by apply IH].
Qed.

Lemma list_del_perm c q : c ∈ q → q ≡ₚ c :: list_del c q.
Proof.
  induction q as [|y q IH]; simpl; [intros Hc; by apply elem_of_nil in Hc|].
  intros Hc. case_decide as E; [by subst|].
  apply elem_of_cons in Hc as [->|Hc]; [done|].
  rewrite (IH Hc) at 1. apply Permutation_swap.
Qed.

Lemma list_del_NoDup c q : NoDup q → NoDup (list_del c q).
Proof.
  induction q as [|y q IH]; simpl; [done|].
  intros [Hy Hq]%NoDup_cons. case_decide; [done|].
  apply NoDup_cons. split; [|by apply IH].
  intros Hin. by apply list_del_elem_of in Hin.
Qed.

Lemma list_del_not_elem c q : c ∉ q → list_del c q = q.
Proof.
  induction q as [|y q IH]; simpl; [done|].
  rewrite not_elem_of_cons. intros [Hne Hc].
  rewrite decide_False by done. by rewrite IH.
Qed.

Lemma list_del_other c q x : x ≠ c → x ∈ q → x ∈ list_del c q.
Proof.
  intros Hne. induction q as [|y q IH]; simpl; [done|].
  rewrite elem_of_cons. intros [->|Hx].
  - rewrite decide_False by done. by left.
  - case_decide; [done|]. right. by apply IH.
Qed.

(** The wait queues around the one of resource [i]. *)
Lemma waiters_split s i r :
  resources s !! i = Some r →
  ∃ A B, waiters s = A ++ waitqueue r ++ B
         ∧ ∀ r' s', resources s' = <[i := r']> (resources s) →
                    waiters s' = A ++ waitqueue r' ++ B.
Proof.
  intros Hr. exists (concat (waitqueue <$> take i (resources s))),
    (concat (waitqueue <$> drop (S i) (resources s))).
  unfold waiters. split.
  - rewrite <- (take_drop_middle _ _ _ Hr) at 1.
    by rewrite fmap_app, concat_app, fmap_cons.
  - intros r' s' ->.
    rewrite insert_take_drop by (by eapply lookup_lt_Some).
    by rewrite fmap_app, concat_app, fmap_cons.
Qed.

Lemma waiters_set_procs f s : waiters (set_procs f s) = waiters s.
Proof. done. Qed.

Lemma linked_set_procs f s : linked (set_procs f s) = linked s.
Proof. done. Qed.

Lemma live_insert s q x p :
  live s q → live (set_procs (<[x := p]>) s) q.
Proof. apply live_set_procs_insert. Qed.

Lemma live_same_dom s s' q :
  (∀ x, is_Some (procs s !! x) → is_Some (procs s' !! x)) → live s q → live s' q.
Proof. intros H Hl. eapply Forall_impl; [exact Hl|]. intros x Hx. by apply H. Qed.

Lemma live_perm s q q' : q ≡ₚ q' → live s q → live s q'.
Proof. intros Hp. unfold live. by rewrite Hp. Qed.

Lemma live_elem s q x : live s q → x ∈ q → is_Some (procs s !! x).
Proof. unfold live. rewrite Forall_forall. auto. Qed.

(** ** What the FCFS policies do to the queues *)

Lemma fork_loop_shuffle sched q s n s' :
  forked sched = None →
  fork_loop sched q s = Ok (n, s') →
  NoDup q → (∀ x, x ∈ q → x ∈ __forkqueue s) →
  __forkqueue s' ++ readyqueue s' ≡ₚ __forkqueue s ++ readyqueue s
  ∧ resources s' = resources s ∧ current s' = current s
  ∧ ticks s' = ticks s ∧ ticks_cnt s' = ticks_cnt s
  ∧ (∀ x, is_Some (procs s' !! x) ↔ is_Some (procs s !! x))
  ∧ (∀ x, x ∉ q → procs s' !! x = procs s !! x)
  ∧ (∀ x p', procs s' !! x = Some p' →
             ∃ p, procs s !! x = Some p ∧ lifespan p' = lifespan p).
Proof.
  intros Hhook. revert s n. induction q as [|c q IH]; intros s n H Hnd Hin; simpl in H.
  - minv H. repeat split; eauto.
  - apply NoDup_cons in Hnd as [Hc Hnd].
    apply bind_inv in H as (p & ? & Hp & H). apply deref_inv in Hp as [Hp ->].
    unfold bind at 1, gets at 1 in H.
    destruct (_ <=? _)%Z.
    + rewrite Hhook in H.
      unfold bind at 1, modify at 1 in H. unfold bind at 1, modify at 1 in H.
      apply bind_inv in H as ([] & ? & Hupd & H).
      apply update_inv in Hupd as (p0 & Hp0 & ->).
      unfold bind at 1, print_event at 1, modify at 1 in H.
      unfold bind at 1, call_hook at 1, ret at 1 in H.
      apply bind_inv in H as (n' & s2 & H & Hr). minv Hr.
      apply IH in H as (Hperm & Hres & Hcur & Htk & Htc & Hdom & Hsame & Hlife);
        [|done|].
      2:{ intros x Hx. simpl. apply list_del_other; [by intros ->|].
          apply Hin. by right. }
      simpl in *. repeat split; try done.
      * rewrite Hperm. unfold list_add_tail.
        rewrite (list_del_perm c (__forkqueue s)) at 2 by (apply Hin; by left).
        rewrite app_assoc. rewrite <- Permutation_cons_append. simpl.
        by rewrite Permutation_middle.
      * intros Hx. apply Hdom in Hx. destruct (decide (c = x)) as [<-|].
        -- eauto.
        -- by rewrite lookup_insert_ne in Hx.
      * intros Hx. apply Hdom. destruct (decide (c = x)) as [<-|].
        -- rewrite lookup_insert_eq. eauto.
        -- by rewrite lookup_insert_ne.
      * intros x Hx. apply not_elem_of_cons in Hx as [Hne Hx].
        rewrite (Hsame x Hx). by rewrite lookup_insert_ne.
      * intros x p' Hx. destruct (Hlife x p' Hx) as (p1 & Hp1 & El).
        destruct (decide (c = x)) as [<-|].
        -- rewrite lookup_insert_eq in Hp1. simplify_eq. eauto.
        -- rewrite lookup_insert_ne in Hp1 by done. eauto.
    + apply IH in H as (Hperm & Hres & Hcur & Htk & Htc & Hdom & Hsame & Hlife);
        [|done|].
      2:{ intros x Hx. apply Hin. by right. }
      repeat split; try done; try apply Hdom.
      intros x Hx. apply not_elem_of_cons in Hx as [Hne Hx]. by apply Hsame.
Qed.

Lemma find_lifespan_elem m q s n s' :
  find_lifespan m q s = Ok (Some n, s') →
  n ∈ q ∧ lifespan_of s n = m.
Proof.
  induction q as [|x q IH]; intros H; simpl in H; [by minv H|].
  apply bind_inv in H as (p & ? & Hp & H). apply deref_inv in Hp as [Hp ->].
  destruct (Nat.eqb_spec m (lifespan p)).
  - minv H. split; [by left|]. by rewrite (lifespan_of_eq _ _ _ Hp).
  - destruct (IH H). split; [by right|done].
Qed.

Lemma min_lifespan_le m q s v s' : min_lifespan m q s = Ok (v, s') → v ≤ m.
Proof.
  revert m. induction q as [|x q IH]; intros m H; simpl in H; [by minv H|].
  apply bind_inv in H as (p & ? & Hp & H). apply deref_inv in Hp as [Hp ->].
  apply IH in H. destruct (lifespan p <? m) eqn:E; [|done].
  apply Nat.ltb_lt in E. lia.
Qed.

Ltac effect_facts :=
  repeat match goal with
  | H : find_lifespan _ _ _ = Ok (Some _, _) |- _ =>
      let H1 := fresh in let H2 := fresh in
      pose proof (find_lifespan_elem _ _ _ _ _ H) as [H1 H2];
      apply find_lifespan_state in H; subst
  | H : last _ = Some _ |- _ =>
      apply last_Some in H as [? H]
  | H : _ && _ = true |- _ => apply andb_true_iff in H as [??]
  | H : negb _ = true |- _ => apply negb_true_iff in H
  | H : bool_decide _ = false |- _ => apply bool_decide_eq_false in H
  | H : bool_decide _ = true |- _ => apply bool_decide_eq_true in H
  | H : (_ <? _) = true |- _ => apply Nat.ltb_lt in H
  end; pure_loops.

Ltac in_queue :=
  first
    [ assumption
    | match goal with
      | H : readyqueue ?s = _ |- _ ∈ readyqueue ?s => rewrite H
      end; set_solver
    | set_solver ].

Ltac effect_solve :=
  unfold sched_effect; simpl in *;
  repeat match goal with
  | |- context [last ?q] => let E := fresh in destruct (last q) eqn:E
  end;
  effect_facts; split_and!; try done;
  first
    [ solve [left; split; [done|]; by left]
    | solve [left; split; [done|]; right; left; eexists _, _; split_and!; eauto]
    | solve [right; left; eexists; split_and!; try done; in_queue]
    | solve [right; right; eexists _, _, _; split_and!; try done;
             first [in_queue
                   | unfold list_add_tail; by rewrite <- Permutation_cons_append]]
    | solve [left; split; [done|]; right; right; eexists; split; [done|]; in_queue] ].

Lemma fifo_schedule_effect s next s' :
  fifo_schedule s = Ok (next, s') → sched_effect s next s'.
Proof.
  intros H. unfold fifo_schedule, current_has_lifetime in H. minv H; effect_facts.
  all: effect_solve.
Qed.

Lemma sjf_schedule_effect s next s' :
  sjf_schedule s = Ok (next, s') → sched_effect s next s'.
Proof.
  intros H. unfold sjf_schedule, current_has_lifetime in H. minv H; effect_facts.
  all: effect_solve.
Qed.

Lemma srtf_schedule_effect s next s' :
  srtf_schedule s = Ok (next, s') → sched_effect s next s'.
Proof.
  intros H. unfold srtf_schedule in H. minv H; effect_facts.
  all: effect_solve.
Qed.

Lemma rr_schedule_effect s next s' :
  rr_schedule s = Ok (next, s') →
  sched_effect s next s' ∧ ticks_cnt s' = wrap_int (ticks_cnt s + 1).
Proof.
  intros H. unfold rr_schedule in H. minv H; effect_facts.
  all: split; [effect_solve|done].
Qed.

(** A step that returned its state unchanged: the name of the state it
    started in is kept. *)
Ltac same_state H :=
  cbv beta iota delta [ret gets assert crash] in H;
  match type of H with
  | Ok (_, _) = Ok (_, ?b) => is_var b; injection H; clear H; intros; subst b
  end.

(** ** The FCFS family keeps the queues well formed *)

Lemma fcfs_family_members sched : sched ∈ fcfs_policies → fcfs_family sched.
Proof.
  unfold fcfs_policies. rewrite !elem_of_cons, elem_of_nil.
  intros [->|[->|[->|[->|[]]]]]; (split; [done|split; [done|split; [|done]]]);
    eexists; (split; [done|]); intros s next s' H.
  - by apply fifo_schedule_effect.
  - by apply sjf_schedule_effect.
  - by apply srtf_schedule_effect.
  - by apply rr_schedule_effect.
Qed.

Lemma fcfs_acquire_free s rid r :
  (0 ≤ rid)%Z → resources s !! Z.to_nat rid = Some r → owner r = None →
  fcfs_acquire rid s =
    Ok (true, set_resources (<[Z.to_nat rid := Resource (current s) (waitqueue r)]>) s).
Proof.
  intros Hrid Hr Ho. unfold fcfs_acquire.
  rewrite (bind_ok _ _ _ _ _ (resource_at_ok _ _ _ Hrid Hr)), Ho. by mred.
Qed.

Lemma fcfs_acquire_owned s rid r c p :
  (0 ≤ rid)%Z → resources s !! Z.to_nat rid = Some r → is_Some (owner r) →
  current s = Some c → procs s !! c = Some p →
  fcfs_acquire rid s =
    Ok (false,
        set_resources (<[Z.to_nat rid := Resource (owner r) (waitqueue r ++ [c])]>)
          (set_procs (<[c := set_status PROCESS_WAIT p]>) s)).
Proof.
  intros Hrid Hr [o Ho] Hc Hp. unfold fcfs_acquire.
  rewrite (bind_ok _ _ _ _ _ (resource_at_ok _ _ _ Hrid Hr)), Ho.
  mred. by rewrite Hc, Hp.
Qed.

Lemma fcfs_acquire_executing rid c L T TC s b s' :
  executing c L T TC s →
  fcfs_acquire rid s = Ok (b, s') →
  if b then executing c L T TC s' else refused c L T TC s'.
Proof.
  intros ((Hnd & Hlive) & Hcur & Hc & Htk & Htc & p & Hp & Hst & HL) H.
  assert (H' := H). unfold fcfs_acquire in H'.
  apply bind_inv in H' as (r & ? & Hr & _).
  apply resource_at_inv in Hr as (Hrid & Hr & ->).
  destruct (waiters_split _ _ _ Hr) as (A & B & EW & EW').
  destruct (owner r) as [o|] eqn:Ho.
  - (* refused *)
    rewrite (fcfs_acquire_owned s rid r c p) in H by eauto.
    injection H as <- <-. rewrite Ho.
    assert (Hlinked : linked (set_resources
               (<[Z.to_nat rid := Resource (Some o) (waitqueue r ++ [c])]>)
               (set_procs (<[c := set_status PROCESS_WAIT p]>) s))
             ≡ₚ c :: linked s).
    { unfold linked. cbn [__forkqueue readyqueue set_resources set_procs].
      rewrite (EW' (Resource (Some o) (waitqueue r ++ [c]))) by done.
      rewrite EW. simpl.
      rewrite <- !app_assoc. simpl.
      rewrite <- (Permutation_middle (waitqueue r)).
      by rewrite <- !Permutation_middle. }
    assert (Hfr : (c ∉ __forkqueue s) ∧ (c ∉ readyqueue s)).
    { unfold linked in Hc. rewrite !not_elem_of_app in Hc. tauto. }
    split; [split|].
    + rewrite Hlinked. by apply NoDup_cons.
    + eapply live_perm; [symmetry; exact Hlinked|].
      apply Forall_cons. split.
      * simpl. rewrite lookup_insert_eq. eauto.
      * apply (live_insert s). done.
    + simpl. rewrite lookup_insert_eq. destruct Hfr. split_and!; try done.
      eexists. split_and!; done.
  - (* granted *)
    rewrite (fcfs_acquire_free s rid r) in H by eauto.
    injection H as <- <-.
    assert (Hlinked : linked (set_resources
               (<[Z.to_nat rid := Resource (current s) (waitqueue r)]>) s)
             = linked s).
    { unfold linked. cbn [__forkqueue readyqueue set_resources].
      rewrite (EW' (Resource (current s) (waitqueue r))) by done.
      by rewrite EW. }
    split; [split|]; rewrite ?Hlinked; try done.
    split_and!; try done. by exists p.
Qed.

Lemma fcfs_release_executing rid c L T TC s s' :
  executing c L T TC s →
  fcfs_release rid s = Ok (tt, s') →
  executing c L T TC s'.
Proof.
  intros ((Hnd & Hlive) & Hcur & Hc & Htk & Htc & p & Hp & Hst & HL) H.
  unfold fcfs_release in H.
  apply bind_inv in H as (r & ? & Hr & H).
  apply resource_at_inv in Hr as (Hrid & Hr & ->).
  destruct (waiters_split _ _ _ Hr) as (A & B & EW & EW').
  unfold bind at 1, gets at 1 in H.
  apply bind_inv in H as ([] & ? & Hown & H).
  unfold assert in Hown. case_bool_decide; [|done]. same_state Hown.
  unfold bind at 1, set_resource at 1, modify at 1 in H.
  destruct (waitqueue r) as [|w ws] eqn:Ewq.
  - unfold ret in H. injection H as <-.
    assert (Hlinked : linked (set_resources
               (<[Z.to_nat rid := Resource None []]>) s) = linked s).
    { unfold linked. cbn [__forkqueue readyqueue set_resources].
      rewrite (EW' (Resource None [])) by done. by rewrite EW. }
    split; [split|]; rewrite ?Hlinked; try done.
    split_and!; try done. by exists p.
  - apply bind_inv in H as (pw & ? & Hw & H). apply deref_inv in Hw as [Hw ->].
    cbn [procs set_resources] in Hw.
    apply bind_inv in H as ([] & ? & Hst' & H).
    unfold assert in Hst'. case_bool_decide; [|done]. same_state Hst'.
    unfold bind at 1, set_resource at 1, modify at 1 in H.
    apply bind_inv in H as ([] & ? & Hupd & H).
    apply update_inv in Hupd as (pw' & Hpw' & ->). cbn [procs set_resources] in Hpw'.
    unfold modify in H. injection H as <-. cbn [list_del]. rewrite decide_True by done.
    assert (Hwin : w ∈ linked s).
    { unfold linked. rewrite EW, !elem_of_app, elem_of_cons. tauto. }
    assert (Hne : w ≠ c) by (intros ->; done).
    assert (Hlinked :
      linked (set_readyqueue (list_add_tail w (readyqueue s))
                (set_procs (<[w := set_status PROCESS_READY pw']>)
                   (set_resources (<[Z.to_nat rid := Resource None ws]>)
                      (set_resources (<[Z.to_nat rid := Resource None (w :: ws)]>) s))))
      ≡ₚ linked s).
    { unfold linked. cbn [__forkqueue readyqueue set_readyqueue set_procs set_resources].
      rewrite (EW' (Resource None ws))
        by (simpl; by rewrite list_insert_insert_eq).
      rewrite EW. simpl. unfold list_add_tail.
      rewrite <- !app_assoc. simpl.
      by rewrite <- !Permutation_middle. }
    split; [split|].
    + by rewrite Hlinked.
    + eapply live_perm; [symmetry; exact Hlinked|].
      eapply live_same_dom; [|exact Hlive]. intros x [px Hx]. simpl.
      destruct (decide (w = x)) as [<-|].
      * rewrite lookup_insert_eq. eauto.
      * rewrite lookup_insert_ne by done. eauto.
    + rewrite Hlinked. simpl. rewrite lookup_insert_ne by done.
      split_and!; try done. by exists p.
Qed.

Lemma executing_update c L T TC s p f :
  executing c L T TC s →
  procs s !! c = Some p →
  status (f p) = status p → lifespan (f p) = lifespan p →
  executing c L T TC (set_procs (<[c := f p]>) s).
Proof.
  intros ((Hnd & Hlive) & Hcur & Hc & Htk & Htc & p0 & Hp & Hst & HL) Hp' Es El.
  assert (p0 = p) as -> by congruence.
  split; [split; [done|by apply live_insert]|].
  split_and!; try done. simpl. rewrite lookup_insert_eq.
  eexists. split; [done|]. split; congruence.
Qed.

Lemma executing_event c L T TC s e :
  executing c L T TC s → executing c L T TC (add_event e s).
Proof. done. Qed.

Lemma acquire_loop_executing sched todo c L T TC s ok s' :
  fcfs_family sched →
  executing c L T TC s →
  acquire_loop sched todo s = Ok (ok, s') →
  if ok then executing c L T TC s' else refused c L T TC s'.
Proof.
  intros (Hacq & _). revert s.
  induction todo as [|rs todo IH]; intros s HE H; simpl in H; [by minv H|].
  assert (Hcur : current s = Some c) by apply HE.
  unfold bind at 1 2, gets at 1 in H. rewrite Hcur in H. simpl in H.
  apply bind_inv in H as (p & ? & Hp & H). apply deref_inv in Hp as [Hp ->].
  destruct (_ =? _)%Z; [|by eapply IH].
  rewrite Hacq in H. unfold bind at 1, implemented, ret at 1 in H.
  apply bind_inv in H as (b & s1 & Hcall & H).
  apply (fcfs_acquire_executing _ _ _ _ _ _ _ _ HE) in Hcall.
  destruct b; [|by minv H].
  assert (Hcur1 : current s1 = Some c) by apply Hcall.
  unfold bind at 1 2, gets at 1 in H. rewrite Hcur1 in H. simpl in H.
  apply bind_inv in H as ([] & ? & Hupd & H).
  apply update_inv in Hupd as (p1 & Hp1 & ->).
  unfold bind at 1, deref at 1 in H. cbn [procs set_procs] in H.
  rewrite lookup_insert_eq in H.
  unfold bind at 1, gets at 1 in H. unfold bind at 1, print_event, modify in H.
  eapply IH; [|exact H].
  apply executing_event.
  by apply (executing_update _ _ _ _ _ _
              (λ p, set_holding (__resources_holding p ++ [rs])
                      (set_to_acquire (rs_del rs (__resources_to_acquire p)) p))
              Hcall Hp1).
Qed.

Lemma release_loop_executing sched todo i c L T TC s s' :
  fcfs_family sched →
  executing c L T TC s →
  release_loop sched todo i s = Ok (tt, s') →
  executing c L T TC s'.
Proof.
  intros (_ & Hrel & _). revert s i.
  induction todo as [|rs todo IH]; intros s i HE H; simpl in H; [by minv H|].
  cbv zeta in H.
  assert (Hcur : current s = Some c) by apply HE.
  unfold bind at 1 2, gets at 1 in H. rewrite Hcur in H. simpl in H.
  apply bind_inv in H as ([] & ? & Hupd & H).
  apply update_inv in Hupd as (p & Hp & ->).
  pose proof (executing_update _ _ _ _ _ _
           (λ p, set_holding (<[i:=set_duration (wrap_int (duration rs - 1)) rs]>
                                (__resources_holding p)) p) HE Hp eq_refl eq_refl) as HE1.
  destruct (_ =? _)%Z; [|by eapply IH].
  rewrite Hrel in H. unfold bind at 1, implemented, ret at 1 in H.
  apply bind_inv in H as ([] & s1 & Hcall & H).
  apply (fcfs_release_executing _ _ _ _ _ _ _ HE1) in Hcall.
  assert (Hcur1 : current s1 = Some c) by apply Hcall.
  unfold bind at 1 2, gets at 1 in H. rewrite Hcur1 in H. simpl in H.
  apply bind_inv in H as (p1 & ? & Hp1 & H). apply deref_inv in Hp1 as [Hp1 ->].
  unfold bind at 1, gets at 1 in H. unfold bind at 1, print_event, modify in H.
  apply bind_inv in H as ([] & ? & Hupd & H).
  apply update_inv in Hupd as (p2 & Hp2 & ->).
  eapply IH; [|exact H].
  apply (executing_update _ _ _ _ _ _
           (λ p, set_holding (delete i (__resources_holding p)) p)); [|done..].
  by apply executing_event.
Qed.

Lemma executing_placed c L T TC s : executing c L T TC s → current_placed s.
Proof.
  intros (_ & Hcur & Hc & _ & _ & p & Hp & _) c' Hc'. assert (c' = c) as -> by congruence.
  unfold linked in Hc. rewrite !not_elem_of_app in Hc. exists p. tauto.
Qed.

Lemma refused_placed c L T TC s : refused c L T TC s → current_placed s.
Proof.
  intros (_ & Hcur & Hf & Hr & _ & _ & p & Hp & Hst & _) c' Hc'.
  assert (c' = c) as -> by congruence. exists p. split_and!; done.
Qed.

Lemma execute_effect sched c L s s' :
  fcfs_family sched →
  wf s → current s = Some c →
  (∃ p, procs s !! c = Some p ∧ lifespan p = L) →
  execute sched c s = Ok (tt, s') →
  wf s' ∧ current_placed s' ∧ current s' = Some c
  ∧ ticks s' = ticks s ∧ ticks_cnt s' = ticks_cnt s
  ∧ (∃ p', procs s' !! c = Some p' ∧ lifespan p' = L)
  ∧ c ∉ linked s.
Proof.
  intros Hfam Hwf Hcur (p & Hp & HL) H. unfold execute in H.
  unfold bind at 1, update at 1 in H. rewrite Hp in H.
  apply bind_inv in H as (d & ? & Hd & H). unfold gets in Hd.
  injection Hd as <- <-. rewrite detached_set_procs in H.
  destruct (detached c s) eqn:Hdet; [|done].
  unfold bind at 1, assert, ret at 1 in H.
  apply bool_decide_eq_true in Hdet.
  set (s1 := set_procs (<[c := set_status PROCESS_RUNNING p]>) s) in H.
  assert (HE : executing c L (ticks s) (ticks_cnt s) s1).
  { split; [split; [apply Hwf|apply live_insert, Hwf]|].
    split_and!; try done. subst s1. simpl. rewrite lookup_insert_eq.
    eexists. by split_and!. }
  apply bind_inv in H as (ok & s2 & Hacq & H).
  unfold __run_current_acquire in Hacq.
  unfold bind at 1 2, gets at 1 in Hacq. cbn [current s1 set_procs] in Hacq.
  rewrite Hcur in Hacq. cbn [nonnull ret] in Hacq.
  apply bind_inv in Hacq as (p1 & ? & Hp1 & Hacq). apply deref_inv in Hp1 as [_ ->].
  apply (acquire_loop_executing _ _ _ _ _ _ _ _ _ Hfam HE) in Hacq.
  destruct ok.
  - assert (Hcur2 : current s2 = Some c) by apply Hacq.
    unfold bind at 1 2, gets at 1 in H. rewrite Hcur2 in H. cbn [nonnull ret] in H.
    apply bind_inv in H as (p2 & ? & Hp2 & H). apply deref_inv in Hp2 as [Hp2 ->].
    unfold bind at 1, gets at 1 in H. unfold bind at 1, print_event at 1, modify at 1 in H.
    apply bind_inv in H as ([] & ? & Hupd & H).
    apply update_inv in Hupd as (p3 & Hp3 & ->).
    unfold __run_current_release in H.
    unfold bind at 1 2, gets at 1 in H. cbn [current add_event set_procs] in H.
    rewrite Hcur2 in H. cbn [nonnull ret] in H.
    apply bind_inv in H as (p4 & ? & Hp4 & H). apply deref_inv in Hp4 as [_ ->].
    apply (release_loop_executing _ _ _ c L (ticks s) (ticks_cnt s) _ _ Hfam) in H.
    + pose proof (executing_placed _ _ _ _ _ H).
      destruct H as (? & ? & ? & ? & ? & p' & ? & ? & ?). split_and!; eauto.
    + apply (executing_update _ _ _ _ _ _ (λ p, set_age (age p + 1) p)); [|done..].
      by apply executing_event.
  - assert (Hcur2 : current s2 = Some c) by apply Hacq.
    unfold bind at 1 2, gets at 1 in H. rewrite Hcur2 in H. cbn [nonnull ret] in H.
    apply bind_inv in H as (p2 & ? & Hp2 & H). apply deref_inv in Hp2 as [Hp2 ->].
    unfold bind at 1, gets at 1 in H. unfold print_event, modify in H.
    injection H as <-.
    assert (HR : refused c L (ticks s) (ticks_cnt s)
                   (add_event (EvBlocked (ticks s2) (pid p2)) s2)) by done.
    pose proof (refused_placed _ _ _ _ _ HR).
    destruct HR as (? & ? & ? & ? & ? & ? & p' & ? & ? & ?). split_and!; eauto.
Qed.

Lemma sched_effect_wf s next s2 :
  wf s → current_placed s → sched_effect s next s2 →
  wf s2
  ∧ ∀ n, next = Some n →
         ∃ p, procs s !! n = Some p ∧ (current s = Some n → age p ≠ lifespan p).
Proof.
  intros [Hnd Hlive] Hplaced (Epr & Efq & Eres & Ecur & Etk & Etr & Hcases).
  assert (Ew : waiters s2 = waiters s) by (unfold waiters; by rewrite Eres).
  assert (Hdom : ∀ q, live s q → live s2 q).
  { intros q. apply live_same_dom. intros x. by rewrite Epr. }
  destruct Hcases as [(Erq & Hnext)|[(n & -> & Hn & Erq)|(n & c & p & -> & Hn & Hc & Hp & Hst & Hage & Erq)]].
  - assert (El : linked s2 = linked s) by (unfold linked; by rewrite Efq, Erq, Ew).
    split; [split; rewrite El; [done|by apply Hdom]|].
    intros n ->. destruct Hnext as [?|[(c & p & ? & Hc & Hp & _ & Hage)|(n' & ? & Hn)]];
      simplify_eq.
    + exists p. split; [done|]. intros _. lia.
    + assert (Hl : n' ∈ linked s) by (unfold linked; rewrite !elem_of_app; auto).
      destruct (live_elem _ _ _ Hlive Hl) as [p Hp]. exists p. split; [done|].
      intros Hc. destruct (Hplaced _ Hc) as (? & _ & _ & Hnr & _). done.
  - assert (El : linked s ≡ₚ n :: linked s2).
    { unfold linked. rewrite Efq, Erq, Ew.
      rewrite (list_del_perm n (readyqueue s)) at 1 by done.
      simpl. by rewrite <- Permutation_middle. }
    rewrite El in Hnd. apply NoDup_cons in Hnd as [_ Hnd].
    apply (live_perm _ _ _ El) in Hlive as Hlive'.
    apply Forall_cons in Hlive' as [[p Hp] Hlive'].
    split; [split; [done|by apply Hdom]|].
    intros ? [= <-]. exists p. split; [done|].
    intros Hc. destruct (Hplaced _ Hc) as (? & _ & _ & Hnr & _). done.
  - set (rest := __forkqueue s ++ list_del n (readyqueue s) ++ waiters s).
    assert (El : linked s ≡ₚ n :: rest).
    { unfold linked, rest.
      rewrite (list_del_perm n (readyqueue s)) at 1 by done.
      simpl. by rewrite <- Permutation_middle. }
    assert (El2 : linked s2 ≡ₚ c :: rest).
    { unfold linked, rest. rewrite Efq, Erq, Ew.
      simpl. by rewrite <- Permutation_middle. }
    destruct (Hplaced _ Hc) as (p' & Hp' & Hcf & Hcr & Hcw).
    assert (p' = p) as -> by congruence.
    assert (Hcl : c ∉ linked s).
    { unfold linked. rewrite !not_elem_of_app. split_and!; auto. }
    assert (Hcrest : c ∉ rest).
    { intros Hin. apply Hcl. rewrite El. by right. }
    rewrite El in Hnd. apply NoDup_cons in Hnd as [_ Hnd].
    apply (live_perm _ _ _ El) in Hlive as Hlive'.
    apply Forall_cons in Hlive' as [[pn Hpn] Hlive'].
    split; [split|].
    + rewrite El2. by apply NoDup_cons.
    + eapply live_perm; [symmetry; exact El2|].
      apply Forall_cons. split; [rewrite Epr; eauto|by apply Hdom].
    + intros ? [= <-]. exists pn. split; [done|].
      intros Hc'. assert (n = c) as -> by congruence. done.
Qed.

Lemma wf_same s s' :
  __forkqueue s' = __forkqueue s → readyqueue s' = readyqueue s →
  resources s' = resources s →
  (∀ x, x ∈ linked s → is_Some (procs s !! x) → is_Some (procs s' !! x)) →
  wf s → wf s'.
Proof.
  intros Ef Er Eres Hdom [Hnd Hlive].
  assert (El : linked s' = linked s).
  { unfold linked, waiters. by rewrite Ef, Er, Eres. }
  split; rewrite El; [done|].
  unfold live in *. rewrite Forall_forall in *. intros x Hx. apply Hdom; auto.
Qed.

Lemma reschedule_effect sched f s b s' :
  fcfs_family sched → schedule sched = Some f →
  wf s → current_placed s →
  reschedule sched s = Ok (b, s') →
  ∃ next s2,
    f s = Ok (next, s2) ∧ sched_effect s next s2
    ∧ wf s' ∧ current_placed s' ∧ current s' = next
    ∧ ticks_cnt s' = ticks_cnt s2
    ∧ (b = true → ticks s' = wrap_uint (ticks s + 1))
    ∧ (∀ c, next = Some c →
            (c ∉ linked s2)
            ∧ ∃ p p', procs s !! c = Some p ∧ procs s' !! c = Some p'
                      ∧ lifespan p' = lifespan p).
Proof.
  intros Hfam Hf Hwf Hplaced H.
  assert (Hfam' := Hfam). destruct Hfam' as (_ & _ & (f' & Hf' & Heff) & _ & Hexit).
  assert (f' = f) as -> by congruence.
  unfold reschedule in H. unfold bind at 1, gets at 1 in H.
  rewrite Hf in H. unfold bind at 1, implemented, ret at 1 in H.
  apply bind_inv in H as (next & s2 & Hcall & H).
  specialize (Heff _ _ _ Hcall).
  destruct (sched_effect_wf _ _ _ Hwf Hplaced Heff) as [Hwf2 Hnext].
  destruct Heff as (Epr & Efq & Eres & Ecur & Etk & Etr & Hcases).
  assert (Heff : sched_effect s next s2) by (by split_and!).
  exists next, s2. split; [done|]. split; [done|].
  unfold bind at 1, modify at 1 in H. unfold after_schedule in H.
  set (s3 := set_current next s2) in H.
  apply bind_inv in H as ([] & s4 & Hret & H).
  assert (Hret' := Hret).
  apply (retire_frame _ _ _ _ Hexit) in Hret' as (Er4 & Ef4 & Eres4 & Ecur4 & Etk4 & Etc4 & Hlive4 & Hsame4).
  assert (Hwf4 : wf s4) by (by apply (wf_same s3)).
  unfold bind at 1, gets at 1 in H. rewrite Ecur4 in H. cbn [current s3 set_current] in H.
  destruct next as [c|].
  - destruct (Hnext c eq_refl) as (p & Hp & Hage).
    assert (Hp4 : ∃ p4, procs s4 !! c = Some p4 ∧ lifespan p4 = lifespan p).
    { destruct (decide (current s = Some c)) as [Hc|Hc].
      - rewrite Hc in Hret.
        rewrite (retire_stays _ s3 c p) in Hret;
          [|simpl; by rewrite Epr|by apply Hage].
        injection Hret as <-. case_bool_decide; simpl.
        + rewrite lookup_insert_eq. eauto.
        + rewrite Epr. eauto.
      - rewrite (Hsame4 c Hc). simpl. rewrite Epr. eauto. }
    apply bind_inv in H as ([] & s5 & Hexec & H).
    unfold bind, modify, ret in H. injection H as <- <-.
    apply (execute_effect _ _ (lifespan p) _ _ Hfam Hwf4) in Hexec
      as (Hwf5 & Hpl5 & Hcur5 & Htk5 & Htc5 & (p5 & Hp5 & HL5) & Hdet); [| |done].
    2:{ by rewrite Ecur4. }
    split_and!; try done.
    + simpl. by rewrite Htc5, Etc4.
    + intros _. simpl. by rewrite Htk5, Etk4, <- Etk.
    + intros ? [= <-]. split.
      * assert (El : linked s4 = linked s2)
          by (unfold linked, waiters; by rewrite Ef4, Er4, Eres4).
        by rewrite <- El.
      * exists p, p5. by split_and!.
  - unfold bind at 1 2, gets at 1 2 in H.
    destruct (bool_decide (readyqueue s4 = []) && bool_decide (__forkqueue s4 = [])).
    + unfold ret in H. injection H as <- <-.
      split_and!; try done.
      intros c Hc. by rewrite Ecur4 in Hc.
    + unfold bind, gets, print_event, modify, ret in H. injection H as <- <-.
      split_and!; try done.
      * intros c Hc. simpl in Hc. by rewrite Ecur4 in Hc.
      * intros _. simpl. by rewrite Etk4, <- Etk.
Qed.

Lemma fork_effect sched s n s1 :
  forked sched = None →
  wf s → current_placed s →
  __fork_on_schedule sched s = Ok (n, s1) →
  wf s1 ∧ current_placed s1 ∧ current s1 = current s
  ∧ ticks s1 = ticks s ∧ ticks_cnt s1 = ticks_cnt s
  ∧ (∀ x p', procs s1 !! x = Some p' →
             ∃ p, procs s !! x = Some p ∧ lifespan p' = lifespan p).
Proof.
  intros Hhook [Hnd Hlive] Hplaced H. unfold __fork_on_schedule in H.
  unfold bind at 1, gets at 1 in H.
  assert (Hndf : NoDup (__forkqueue s)).
  { unfold linked in Hnd. by apply NoDup_app in Hnd as [? _]. }
  apply (fork_loop_shuffle _ _ _ _ _ Hhook) in H
    as (Hperm & Hres & Hcur & Htk & Htc & Hdom & Hsame & Hlife); [|done..].
  assert (Ew : waiters s1 = waiters s) by (unfold waiters; by rewrite Hres).
  assert (El : linked s1 ≡ₚ linked s).
  { unfold linked. by rewrite Ew, !app_assoc, Hperm. }
  split_and!; try done.
  - split; [by rewrite El|].
    eapply live_perm; [symmetry; exact El|].
    eapply live_same_dom; [|exact Hlive]. intros x. apply Hdom.
  - intros c Hc. rewrite Hcur in Hc.
    destruct (Hplaced c Hc) as (p & Hp & Hf & Hr & Hw).
    exists p. rewrite (Hsame c Hf), Ew.
    assert (Hfr : c ∉ __forkqueue s1 ++ readyqueue s1).
    { rewrite Hperm, not_elem_of_app. done. }
    rewrite not_elem_of_app in Hfr. destruct Hfr. done.
Qed.

Lemma round_sound sched s b s' :
  fcfs_family sched →
  wf s ∧ current_placed s →
  round sched s = Ok (b, s') →
  wf s' ∧ current_placed s'.
Proof.
  intros Hfam [Hwf Hpl] H. unfold round in H.
  apply bind_inv in H as (n & s1 & Hfork & H).
  assert (Hfam' := Hfam). destruct Hfam' as (_ & _ & (f & Hf & _) & Hhook & _).
  apply (fork_effect _ _ _ _ Hhook Hwf Hpl) in Hfork as (Hwf1 & Hpl1 & _).
  destruct (reschedule_effect _ _ _ _ _ Hfam Hf Hwf1 Hpl1 H)
    as (next & s2 & _ & _ & ? & ? & _). done.
Qed.

(** The state [main] hands to [__do_simulation]. *)
Lemma load_from_spec a script s :
  __forkqueue (load_from a script s) = __forkqueue s ++ seq a (length script)
  ∧ readyqueue (load_from a script s) = readyqueue s
  ∧ resources (load_from a script s) = resources s
  ∧ current (load_from a script s) = current s
  ∧ ticks (load_from a script s) = ticks s
  ∧ ticks_cnt (load_from a script s) = ticks_cnt s
  ∧ (∀ x, x ∈ seq a (length script) → is_Some (procs (load_from a script s) !! x))
  ∧ (∀ x, is_Some (procs s !! x) → is_Some (procs (load_from a script s) !! x)).
Proof.
  revert a s. induction script as [|p script IH]; intros a s; simpl.
  - rewrite app_nil_r. split_and!; try done. intros x Hx. by apply elem_of_nil in Hx.
  - destruct (IH (S a) (set_forkqueue (list_add_tail a (__forkqueue s))
                         (set_procs (<[a := p]>) s)))
      as (Ef & Er & Eres & Ec & Et & Etc & Hnew & Hold).
    rewrite Ef, Er, Eres, Ec, Et, Etc. simpl. unfold list_add_tail.
    rewrite <- app_assoc. split_and!; try done.
    + intros x Hx. apply elem_of_cons in Hx as [->|Hx]; [|by apply Hnew].
      apply Hold. simpl. rewrite lookup_insert_eq. eauto.
    + intros x [px Hx]. apply Hold. simpl.
      destruct (decide (a = x)) as [->|].
      * rewrite lookup_insert_eq. eauto.
      * rewrite lookup_insert_ne by done. eauto.
Qed.

Lemma waiters_initial n : concat (waitqueue <$> replicate n (Resource None [])) = [].
Proof. induction n; simpl; done. Qed.

Lemma boot_sound NR script :
  wf (boot NR script) ∧ current_placed (boot NR script).
Proof.
  unfold boot, __load_script.
  destruct (load_from_spec 0 script (__initialize NR))
    as (Ef & Er & Eres & Ec & _ & _ & Hnew & _).
  assert (El : linked (load_from 0 script (__initialize NR)) = seq 0 (length script)).
  { unfold linked, waiters. rewrite Ef, Er, Eres. simpl.
    by rewrite waiters_initial, !app_nil_r. }
  split; [split|].
  - rewrite El. apply NoDup_seq.
  - rewrite El. unfold live. rewrite Forall_forall. done.
  - intros c Hc. by rewrite Ec in Hc.
Qed.

Lemma reachable_sound sched s0 s :
  fcfs_family sched →
  wf s0 ∧ current_placed s0 →
  reachable sched s0 s →
  wf s ∧ current_placed s.
Proof.
  intros Hfam H0 Hreach. induction Hreach as [|s s' _ IH Hround]; [done|].
  by eapply round_sound.
Qed.

(** ** SRTF never runs a process of lifespan above 1000 *)

Lemma srtf_schedule_bounded s c s2 :
  srtf_schedule s = Ok (Some c, s2) →
  c ∉ readyqueue s2 →
  current s = Some c ∨ lifespan_of s c ≤ 1000.
Proof.
  intros H Hc. unfold srtf_schedule in H.
  unfold bind at 1, gets at 1 in H. cbv zeta in H.
  apply bind_inv in H as (min & s0 & Hmin & H).
  assert (Hle : min ≤ 1000 ∧ s0 = s).
  { clear H. revert Hmin. case_bool_decide; intros Hmin.
    - split; [by eapply min_lifespan_le|by eapply min_lifespan_state].
    - unfold ret in Hmin. by injection Hmin as <- <-. }
  destruct Hle as [Hle ->]. clear Hmin.
  assert (Hpick : ∀ s3,
    (if bool_decide (length (readyqueue s) + length (readyqueue s) ≠ 0)
     then let* min0 := min_lifespan min (readyqueue s) in
          let* found := find_lifespan min0 (readyqueue s) in
          match found with
          | Some prc => detach_ready prc;; ret (Some prc)
          | None => ret (last (readyqueue s))
          end
     else ret (last (readyqueue s))) s = Ok (Some c, s3) →
    c ∈ readyqueue s3 ∨ lifespan_of s c ≤ 1000).
  { intros s3 Hp. case_bool_decide.
    - apply bind_inv in Hp as (min0 & ? & Hmin0 & Hp).
      pose proof (min_lifespan_le _ _ _ _ _ Hmin0).
      apply min_lifespan_state in Hmin0 as ->.
      apply bind_inv in Hp as (found & ? & Hfind & Hp).
      destruct found as [prc|].
      + destruct (find_lifespan_elem _ _ _ _ _ Hfind) as [_ Hk].
        apply find_lifespan_state in Hfind as ->. minv Hp. right. lia.
      + apply find_lifespan_state in Hfind as ->. minv Hp. left.
        match goal with H : last _ = Some _ |- _ => apply last_Some in H as [l ->] end.
        rewrite elem_of_app, list_elem_of_singleton. auto.
    - minv Hp. left.
      match goal with H : last _ = Some _ |- _ => apply last_Some in H as [l ->] end.
      rewrite elem_of_app, list_elem_of_singleton. auto. }
  unfold bind at 1, gets at 1 in H.
  destruct (current s) as [c0|] eqn:Ec.
  2:{ destruct (Hpick _ H); [done|by right]. }
  apply bind_inv in H as (p & ? & Hp & H). apply deref_inv in Hp as [Hp ->].
  destruct (bool_decide (status p = PROCESS_WAIT));
    [destruct (Hpick _ H); [done|by right]|].
  destruct (age p <? lifespan p); [|destruct (Hpick _ H); [done|by right]].
  destruct (min <? lifespan p - age p).
  - apply bind_inv in H as (found & ? & Hfind & H).
    destruct found as [prc|].
    + destruct (find_lifespan_elem _ _ _ _ _ Hfind) as [_ Hk].
      apply find_lifespan_state in Hfind as ->. clear Hpick. minv H. by right.
    + apply find_lifespan_state in Hfind as ->.
      destruct (Hpick _ H); [done|by right].
  - clear Hpick. minv H. by left.
Qed.

Lemma srtf_current_bounded s0 s :
  wf s0 ∧ current_placed s0 →
  (∀ c p, current s0 = Some c → procs s0 !! c = Some p → lifespan p ≤ 1000) →
  reachable srtf_scheduler s0 s →
  ∀ c p, current s = Some c → procs s !! c = Some p → lifespan p ≤ 1000.
Proof.
  intros Hs0 H0. induction 1 as [|s s' Hreach IH Hround]; [exact H0|].
  assert (Hfam : fcfs_family srtf_scheduler).
  { apply fcfs_family_members. unfold fcfs_policies. rewrite !elem_of_cons. auto 10. }
  destruct (reachable_sound _ _ _ Hfam Hs0 Hreach) as [Hwf Hpl].
  intros c p' Hc Hp'. unfold round in Hround.
  apply bind_inv in Hround as (n & s1 & Hfork & H).
  apply (fork_effect srtf_scheduler _ _ _ eq_refl Hwf Hpl) in Hfork
    as (Hwf1 & Hpl1 & Hcur1 & _ & _ & Hlife1).
  destruct (reschedule_effect srtf_scheduler _ _ _ _ Hfam eq_refl Hwf1 Hpl1 H)
    as (next & s2 & Hsched & _ & _ & _ & Hnext & _ & _ & Hsel).
  rewrite Hc in Hnext. subst next.
  destruct (Hsel c eq_refl) as (Hdet & p1 & p2 & Hp1 & Hp2 & HL).
  assert (p2 = p') as -> by congruence. rewrite HL.
  destruct (Hlife1 _ _ Hp1) as (p0 & Hp0 & HL0).
  destruct (srtf_schedule_bounded _ _ _ Hsched) as [Hsame|Hbound].
  - unfold linked in Hdet. rewrite !not_elem_of_app in Hdet. tauto.
  - rewrite HL0. eapply IH; [|done]. congruence.
  - by rewrite (lifespan_of_eq _ _ _ Hp1) in Hbound.
Qed.


(** ** SRTF with a running process *)

Lemma srtf_minimum s :
  live s (readyqueue s) →
  (if bool_decide (length (readyqueue s) ≠ 0)
   then min_lifespan 1000 (readyqueue s) else ret 1000) s
  = Ok (foldl Nat.min 1000 (lifespan_of s <$> readyqueue s), s).
Proof.
  intros Hlive. case_bool_decide as E.
  - by apply min_lifespan_spec.
  - destruct (readyqueue s); [done|]. simpl in E. lia.
Qed.

Lemma srtf_running s c p :
  current s = Some c → procs s !! c = Some p →
  status p ≠ PROCESS_WAIT → age p < lifespan p → lifespan p ≤ 1000 →
  live s (readyqueue s) →
  ((∃ x, x ∈ readyqueue s ∧ lifespan_of s x < lifespan p - age p) →
   ∃ q, first_least (lifespan_of s) (readyqueue s) q
        ∧ lifespan_of s q < lifespan p - age p
        ∧ srtf_schedule s =
            Ok (Some q, set_readyqueue (c :: list_del q (readyqueue s)) s))
  ∧ ((∀ x, x ∈ readyqueue s → lifespan p - age p ≤ lifespan_of s x) →
     srtf_schedule s = Ok (Some c, s)).
Proof.
  intros Hc Hp Hst Hage HL Hlive.
  set (key := lifespan_of s). set (rq := readyqueue s).
  set (min := foldl Nat.min 1000 (key <$> rq)).
  assert (E : ∀ k, srtf_schedule s =
    (if min <? lifespan p - age p then
       let* found := find_lifespan min rq in
       match found with
       | Some prc =>
           detach_ready prc;;
           modify (λ s, set_readyqueue (list_add c (readyqueue s)) s);;
           ret (Some prc)
       | None => k
       end
     else ret (Some c)) s → True) by done.
  assert (Hstart : ∃ k, srtf_schedule s =
    (if min <? lifespan p - age p then
       let* found := find_lifespan min rq in
       match found with
       | Some prc =>
           detach_ready prc;;
           modify (λ s, set_readyqueue (list_add c (readyqueue s)) s);;
           ret (Some prc)
       | None => k
       end
     else ret (Some c)) s).
  { eexists. unfold srtf_schedule.
    unfold bind at 1, gets at 1. cbv zeta.
    rewrite (bind_ok _ _ _ _ _ (srtf_minimum s Hlive)).
    unfold bind at 1, gets at 1. rewrite Hc.
    rewrite (bind_ok _ _ _ _ _ (deref_ok _ _ _ Hp)).
    rewrite bool_decide_false by done.
    rewrite (proj2 (Nat.ltb_lt _ _) Hage). reflexivity. }
  destruct Hstart as [k Hstart]. clear E. split.
  - intros (x & Hx & Hlt).
    destruct (find_key_least key rq 1000) as (q & Hfind & Hfirst).
    { exists x. split; [done|]. unfold key in *. lia. }
    assert (Hq : key q = min).
    { apply find_key_split in Hfind as (? & ? & _ & ? & _). done. }
    assert (Hmin : min < lifespan p - age p).
    { pose proof (foldl_min_elem 1000 (key <$> rq) (key x)
                    ltac:(by apply list_elem_of_fmap_2)). fold min in H. unfold key in *. lia. }
    exists q. split; [done|]. split; [unfold key in *; lia|].
    rewrite Hstart. rewrite (proj2 (Nat.ltb_lt _ _) Hmin).
    rewrite (bind_ok _ _ _ _ _ (find_lifespan_spec s rq min Hlive)).
    fold key. fold min in Hfind. rewrite Hfind. reflexivity.
  - intros Hall. rewrite Hstart.
    assert (Hmin : lifespan p - age p ≤ min).
    { destruct (foldl_min_in 1000 (key <$> rq)) as [E|E]; fold min in E.
      - lia.
      - apply list_elem_of_fmap in E as (x & -> & Hx). by apply Hall. }
    destruct (Nat.ltb_spec min (lifespan p - age p)); [lia|done].
Qed.

(** C5.  SRTF.  In a state the simulation reaches, after the forks of the
    round, with a current process that is not blocked and has age below
    lifespan: if some ready process has a lifespan strictly less than the
    remaining time of the runner, [srtf_schedule] returns the first ready
    process of least lifespan, takes it out of the ready queue and puts the
    runner back into the ready queue (at its head); otherwise it returns
    the runner and changes nothing.  In the scenario of a process of
    lifespan 5 started alone and a process of lifespan 1 forked at tick 2,
    the new process runs at tick 2 and the first resumes at tick 3. *)
Theorem srtf_preempts (NR : nat) (script : list process) (s s1 : sim) (n : nat)
    (c : ptr) (p : process) :
  reachable srtf_scheduler (boot NR script) s →
  __fork_on_schedule srtf_scheduler s = Ok (n, s1) →
  current s1 = Some c →
  procs s1 !! c = Some p →
  status p ≠ PROCESS_WAIT →
  age p < lifespan p →
  ((∃ x, x ∈ readyqueue s1 ∧ lifespan_of s1 x < lifespan p - age p) →
   ∃ q, first_least (lifespan_of s1) (readyqueue s1) q
        ∧ lifespan_of s1 q < lifespan p - age p
        ∧ srtf_schedule s1 =
            Ok (Some q, set_readyqueue (c :: list_del q (readyqueue s1)) s1))
  ∧ ((∀ x, x ∈ readyqueue s1 → lifespan p - age p ≤ lifespan_of s1 x) →
     srtf_schedule s1 = Ok (Some c, s1))
  ∧ (∃ s',
       __do_simulation srtf_scheduler 10
         (boot 1 [new_process 1 5 0 0 []; new_process 2 1 0 2 []]) = Ok (true, s')
       ∧ runs (trace s') = [(0%Z, 1); (1%Z, 1); (2%Z, 2); (3%Z, 1); (4%Z, 1); (5%Z, 1)]).
Proof.
  intros Hreach Hfork Hc Hp Hst Hage.
  assert (Hfam : fcfs_family srtf_scheduler).
  { apply fcfs_family_members. unfold fcfs_policies. rewrite !elem_of_cons. auto 10. }
  destruct (reachable_sound _ _ _ Hfam (boot_sound NR script) Hreach) as [Hwf Hpl].
  assert (Hidle : current (boot NR script) = None).
  { unfold boot, __load_script.
    by destruct (load_from_spec 0 script (__initialize NR)) as (_ & _ & _ & -> & _). }
  assert (Hbound : ∀ c p, current s = Some c → procs s !! c = Some p → lifespan p ≤ 1000).
  { apply (srtf_current_bounded (boot NR script)); [apply boot_sound| |done].
    intros ?? Hb. by rewrite Hidle in Hb. }
  destruct (fork_effect srtf_scheduler _ _ _ eq_refl Hwf Hpl Hfork)
    as ([Hnd1 Hlive1] & _ & Hcur1 & _ & _ & Hlife1).
  assert (HL : lifespan p ≤ 1000).
  { destruct (Hlife1 _ _ Hp) as (p0 & Hp0 & ->). eapply Hbound; [|done]. congruence. }
  assert (Hrq : live s1 (readyqueue s1)).
  { unfold live in *. rewrite Forall_forall in *. intros x Hx. apply Hlive1.
    unfold linked. rewrite !elem_of_app. auto. }
  destruct (srtf_running s1 c p Hc Hp Hst Hage HL Hrq) as [HA HB].
  split; [done|]. split; [done|].
  eexists. split; [vm_compute; reflexivity|]. vm_compute. reflexivity.
Qed.

(** ** Round-robin and the two clocks *)

Lemma wrap_uint_int z : wrap_uint (wrap_int z) = wrap_uint z.
Proof.
  unfold wrap_uint, wrap_int.
  rewrite Zminus_mod_idemp_l. f_equal. lia.
Qed.

Lemma wrap_uint_succ z : wrap_uint (wrap_uint z + 1) = wrap_uint (z + 1).
Proof. unfold wrap_uint. by rewrite Zplus_mod_idemp_l. Qed.

Lemma rr_clock s0 s :
  wf s0 ∧ current_placed s0 →
  ticks s0 = wrap_uint (ticks_cnt s0 + 1) →
  reachable rr_scheduler s0 s →
  ticks s = wrap_uint (ticks_cnt s + 1).
Proof.
  intros Hs0 H0. induction 1 as [|s s' Hreach IH Hround]; [exact H0|].
  assert (Hfam : fcfs_family rr_scheduler).
  { apply fcfs_family_members. unfold fcfs_policies. rewrite !elem_of_cons. auto 10. }
  destruct (reachable_sound _ _ _ Hfam Hs0 Hreach) as [Hwf Hpl].
  unfold round in Hround.
  apply bind_inv in Hround as (n & s1 & Hfork & H).
  apply (fork_effect rr_scheduler _ _ _ eq_refl Hwf Hpl) in Hfork
    as (Hwf1 & Hpl1 & _ & Htk1 & Htc1 & _).
  destruct (reschedule_effect rr_scheduler _ _ _ _ Hfam eq_refl Hwf1 Hpl1 H)
    as (next & s2 & Hsched & _ & _ & _ & _ & Htc & Htk & _).
  apply rr_schedule_effect in Hsched as [_ Htc2].
  rewrite (Htk eq_refl), Htc, Htc2, Htk1, Htc1, IH.
  rewrite wrap_uint_succ. rewrite <- (wrap_uint_succ (wrap_int _)), wrap_uint_int.
  rewrite wrap_uint_succ. f_equal; lia.
Qed.

Lemma rr_running s c p :
  current s = Some c → procs s !! c = Some p →
  status p ≠ PROCESS_WAIT → age p < lifespan p →
  ticks s = wrap_uint (ticks_cnt s + 1) →
  (∀ h t, readyqueue s = h :: t →
          rr_schedule s =
            Ok (Some h,
                set_readyqueue (t ++ [c])
                  (set_ticks_cnt (wrap_int (ticks_cnt s + 1)) s)))
  ∧ (readyqueue s = [] →
     rr_schedule s = Ok (Some c, set_ticks_cnt (wrap_int (ticks_cnt s + 1)) s)).
Proof.
  intros Hc Hp Hst Hage Hclock.
  assert (Htest : bool_decide (ticks s = wrap_uint (wrap_int (ticks_cnt s + 1))) = true).
  { apply bool_decide_eq_true. by rewrite wrap_uint_int. }
  split.
  - intros h t Hrq. unfold rr_schedule. mred. mrun.
    rewrite bool_decide_false by done. rewrite (proj2 (Nat.ltb_lt _ _) Hage).
    destruct s; simpl in *. rewrite Htest, Hrq. simpl.
    by rewrite decide_True by done.
  - intros Hrq. unfold rr_schedule. mred. mrun.
    rewrite bool_decide_false by done. rewrite (proj2 (Nat.ltb_lt _ _) Hage).
    destruct s; simpl in *. by rewrite Htest, Hrq.
Qed.

(** C6.  Round-robin.  In a state the simulation reaches, after the forks
    of the round, with a current process that is not blocked and has age
    below lifespan: when the ready queue is not empty [rr_schedule] returns
    its head and moves the runner to its tail; when it is empty the runner
    continues.  Two processes of lifespan 3 that both start at tick 0 run
    in strict alternation. *)
Theorem rr_rotates (NR : nat) (script : list process) (s s1 : sim) (n : nat)
    (c : ptr) (p : process) :
  reachable rr_scheduler (boot NR script) s →
  __fork_on_schedule rr_scheduler s = Ok (n, s1) →
  current s1 = Some c →
  procs s1 !! c = Some p →
  status p ≠ PROCESS_WAIT →
  age p < lifespan p →
  (∀ h t, readyqueue s1 = h :: t →
          rr_schedule s1 =
            Ok (Some h,
                set_readyqueue (t ++ [c])
                  (set_ticks_cnt (wrap_int (ticks_cnt s1 + 1)) s1)))
  ∧ (readyqueue s1 = [] →
     rr_schedule s1 = Ok (Some c, set_ticks_cnt (wrap_int (ticks_cnt s1 + 1)) s1))
  ∧ (∃ s',
       __do_simulation rr_scheduler 10
         (boot 1 [new_process 1 3 0 0 []; new_process 2 3 0 0 []]) = Ok (true, s')
       ∧ runs (trace s') = [(0%Z, 1); (1%Z, 2); (2%Z, 1); (3%Z, 2); (4%Z, 1); (5%Z, 2)]).
Proof.
  intros Hreach Hfork Hc Hp Hst Hage.
  assert (Hfam : fcfs_family rr_scheduler).
  { apply fcfs_family_members. unfold fcfs_policies. rewrite !elem_of_cons. auto 10. }
  destruct (reachable_sound _ _ _ Hfam (boot_sound NR script) Hreach) as [Hwf Hpl].
  assert (Hclock0 : ticks (boot NR script) = wrap_uint (ticks_cnt (boot NR script) + 1)).
  { unfold boot, __load_script.
    destruct (load_from_spec 0 script (__initialize NR))
      as (_ & _ & _ & _ & -> & -> & _). done. }
  pose proof (rr_clock _ _ (boot_sound NR script) Hclock0 Hreach) as Hclock.
  destruct (fork_effect rr_scheduler _ _ _ eq_refl Hwf Hpl Hfork)
    as (_ & _ & _ & Htk1 & Htc1 & _).
  destruct (rr_running s1 c p Hc Hp Hst Hage) as [HA HB]; [congruence|].
  split; [done|]. split; [done|].
  eexists. split; [vm_compute; reflexivity|]. vm_compute. reflexivity.
Qed.

(** ** Priority with aging *)

Lemma set_procs_id f s : f (procs s) = procs s → set_procs f s = s.
Proof. intros H. destruct s. unfold set_procs. simpl in *. by rewrite H. Qed.

Lemma set_procs_ext f g s : f (procs s) = g (procs s) → set_procs f s = set_procs g s.
Proof. unfold set_procs. by intros ->. Qed.

Lemma live_alter f x s q : live s q → live (set_procs (alter f x) s) q.
Proof.
  apply live_same_dom. intros y Hy. simpl. by apply lookup_alter_is_Some.
Qed.

Lemma prio_of_alter_ne f x s y :
  y ≠ x → prio_of (set_procs (alter f x) s) y = prio_of s y.
Proof. intros Hne. unfold prio_of. simpl. by rewrite lookup_alter_ne. Qed.

Lemma age_prio_spec MAX_PRIO x p s :
  procs s !! x = Some p →
  age_prio MAX_PRIO x s = Ok (tt, set_procs (alter (aged MAX_PRIO) x) s).
Proof.
  intros Hp. unfold age_prio. rewrite (bind_ok _ _ _ _ _ (deref_ok _ _ _ Hp)).
  destruct (prio p <? MAX_PRIO) eqn:E.
  - rewrite (update_ok _ _ _ _ Hp). do 2 f_equal. apply set_procs_ext.
    apply map_eq. intros i. destruct (decide (i = x)) as [->|Hne].
    + rewrite lookup_insert_eq, lookup_alter_eq, Hp. simpl. unfold aged. by rewrite E.
    + by rewrite lookup_insert_ne, lookup_alter_ne.
  - unfold ret. do 2 f_equal. symmetry. apply set_procs_id.
    apply map_eq. intros i. destruct (decide (i = x)) as [->|Hne].
    + rewrite lookup_alter_eq, Hp. simpl. unfold aged. by rewrite E.
    + by rewrite lookup_alter_ne.
Qed.

Lemma age_all_spec MAX_PRIO q s :
  live s q → age_all MAX_PRIO q s = Ok (tt, set_procs (age_in MAX_PRIO q) s).
Proof.
  revert s. induction q as [|x q IH]; intros s Hl; simpl.
  - unfold ret. by rewrite set_procs_id.
  - apply Forall_cons in Hl as [[p Hp] Hl].
    rewrite (bind_ok _ _ _ _ _ (age_prio_spec _ _ _ _ Hp)).
    rewrite IH by by apply live_alter. by destruct s.
Qed.

Lemma pa_select_flag MAX_PRIO max next q s :
  live s q →
  pa_select MAX_PRIO max true next q s = Ok (next, set_procs (age_in MAX_PRIO q) s).
Proof.
  revert s. induction q as [|x q IH]; intros s Hl; simpl.
  - unfold ret. by rewrite set_procs_id.
  - apply Forall_cons in Hl as [[p Hp] Hl].
    rewrite (bind_ok _ _ _ _ _ (deref_ok _ _ _ Hp)), andb_false_r.
    rewrite (bind_ok _ _ _ _ _ (age_prio_spec _ _ _ _ Hp)).
    rewrite IH by by apply live_alter. by destruct s.
Qed.

Lemma pa_select_first MAX_PRIO max pre n post s :
  NoDup (pre ++ [n]) →
  live s (pre ++ n :: post) →
  (∀ x, x ∈ pre → prio_of s x ≠ max) →
  prio_of s n = max →
  pa_select MAX_PRIO max false None (pre ++ n :: post) s
  = Ok (Some n, set_procs (age_in MAX_PRIO (pre ++ post)) s).
Proof.
  revert s. induction pre as [|x pre IH]; intros s Hnd Hl Hpre Hn; simpl.
  - apply Forall_cons in Hl as [[p Hp] Hl].
    rewrite (bind_ok _ _ _ _ _ (deref_ok _ _ _ Hp)).
    rewrite (prio_of_eq _ _ _ Hp) in Hn. rewrite Hn, Nat.eqb_refl. simpl.
    by apply pa_select_flag.
  - simpl in Hnd, Hl. apply NoDup_cons in Hnd as [Hx Hnd].
    apply Forall_cons in Hl as [[p Hp] Hl].
    rewrite (bind_ok _ _ _ _ _ (deref_ok _ _ _ Hp)).
    assert (Hne : prio p ≠ max).
    { rewrite <- (prio_of_eq _ _ _ Hp). apply Hpre. by left. }
    rewrite (proj2 (Nat.eqb_neq max (prio p))) by done. simpl.
    rewrite (bind_ok _ _ _ _ _ (age_prio_spec _ _ _ _ Hp)).
    rewrite IH; [by destruct s|done|by apply live_alter| |].
    + intros y Hy. rewrite prio_of_alter_ne; [apply Hpre; by right|].
      intros ->. apply Hx. rewrite elem_of_app. by left.
    + rewrite prio_of_alter_ne; [done|].
      intros ->. apply Hx. rewrite elem_of_app, list_elem_of_singleton. by right.
Qed.

Lemma age_in_lookup MAX_PRIO q m x :
  NoDup q →
  age_in MAX_PRIO q m !! x
  = if decide (x ∈ q) then aged MAX_PRIO <$> m !! x else m !! x.
Proof.
  revert m. induction q as [|a q IH]; intros m Hnd.
  - rewrite decide_False; [done|]. apply not_elem_of_nil.
  - apply NoDup_cons in Hnd as [Ha Hnd].
    change (age_in MAX_PRIO (a :: q) m)
      with (age_in MAX_PRIO q (alter (aged MAX_PRIO) a m)).
    rewrite IH by done. destruct (decide (x = a)) as [->|Hne].
    + rewrite (decide_False (P := a ∈ q)) by done.
      rewrite decide_True by by left. by rewrite lookup_alter_eq.
    + rewrite lookup_alter_ne by done.
      destruct (decide (x ∈ q)).
      * rewrite decide_True; [done|]. by right.
      * rewrite decide_False; [done|]. rewrite elem_of_cons. tauto.
Qed.

Lemma foldl_max_eq m l v :
  m ≤ v → (∀ a, a ∈ l → a ≤ v) → v = m ∨ v ∈ l → foldl Nat.max m l = v.
Proof.
  intros Hm Hl Hv. apply Nat.le_antisymm.
  - destruct (foldl_max_in m l) as [->|E]; [done|]. by apply Hl.
  - destruct Hv as [->|Hv]; [apply foldl_max_ge|by apply foldl_max_elem].
Qed.

Lemma first_greatest_max key q n m :
  first_greatest key q n → m ≤ key n → foldl Nat.max m (key <$> q) = key n.
Proof.
  intros (pre & post & -> & Hpre & Hpost) Hm. apply foldl_max_eq; [done| |].
  - intros a (x & -> & Hx)%list_elem_of_fmap.
    apply elem_of_app in Hx as [Hx|Hx]; [specialize (Hpre x Hx); lia|].
    apply elem_of_cons in Hx as [->|Hx]; [done|by apply Hpost].
  - right. apply list_elem_of_fmap_2. rewrite elem_of_app, elem_of_cons. auto.
Qed.

Lemma list_del_middle n pre post : n ∉ pre → list_del n (pre ++ n :: post) = pre ++ post.
Proof.
  induction pre as [|y pre IH]; simpl; intros Hn.
  - by rewrite decide_True.
  - apply not_elem_of_cons in Hn as [Hne Hn]. rewrite decide_False by done.
    by rewrite IH.
Qed.

Lemma pa_pick_next_spec MAX_PRIO cnt max s n pn :
  cnt ≠ 0 →
  NoDup (readyqueue s) →
  live s (readyqueue s) →
  first_greatest (prio_of s) (readyqueue s) n →
  max ≤ prio_of s n →
  procs s !! n = Some pn →
  pa_pick_next MAX_PRIO cnt max s
  = Ok (Some n,
        set_procs (λ m, <[n := rested pn]> (age_in MAX_PRIO (list_del n (readyqueue s)) m))
          (set_readyqueue (list_del n (readyqueue s)) s)).
Proof.
  intros Hcnt Hnd Hl Hfg Hmax Hpn. unfold pa_pick_next.
  rewrite bool_decide_true by done.
  rewrite (bind_ok (gets readyqueue) _ s _ _ eq_refl).
  rewrite (bind_ok _ _ _ _ _ (max_prio_spec _ _ _ Hl)).
  rewrite (first_greatest_max _ _ _ _ Hfg Hmax).
  destruct Hfg as (pre & post & Hq & Hpre & Hpost).
  rewrite Hq in Hnd, Hl |- *.
  assert (Hn : n ∉ pre ++ post).
  { apply NoDup_app in Hnd as (_ & Hd & Hnd'). apply NoDup_cons in Hnd' as [Hn' _].
    rewrite elem_of_app. intros [Hx|Hx]; [|done]. apply (Hd n Hx). by left. }
  assert (Hn1 : n ∉ pre) by (rewrite elem_of_app in Hn; tauto).
  rewrite list_del_middle by done.
  assert (Hd0 : NoDup (pre ++ [n])).
  { apply NoDup_app in Hnd as (Hd1 & Hd & Hd2). apply NoDup_app.
    split; [done|]. split; [|apply NoDup_singleton].
    by intros x Hx ->%list_elem_of_singleton. }
  assert (Hlt : ∀ x, x ∈ pre → prio_of s x ≠ prio_of s n).
  { intros x Hx. specialize (Hpre x Hx). lia. }
  rewrite (bind_ok _ _ _ _ _
             (pa_select_first MAX_PRIO _ pre n post s Hd0 Hl Hlt eq_refl)).
  assert (Hpn' : age_in MAX_PRIO (pre ++ post) (procs s) !! n = Some pn).
  { rewrite age_in_lookup, decide_False; [done|done|].
    apply NoDup_app in Hnd as (Hd1 & Hd & Hd2). apply NoDup_cons in Hd2 as [_ Hd2].
    apply NoDup_app. split; [done|]. split; [|done].
    intros x Hx Hx'. apply (Hd x Hx). by right. }
  unfold reset_prio. mred. mrun. rewrite Hpn'. mrun. rewrite Hpn'.
  rewrite Hq, list_del_middle by done. by destruct s.
Qed.

Lemma list_del_app_l n q q' : n ∈ q → list_del n (q ++ q') = list_del n q ++ q'.
Proof.
  induction q as [|y q IH]; simpl; [intros H; by apply elem_of_nil in H|].
  intros H. case_decide; [done|].
  apply elem_of_cons in H as [->|H]; [done|]. by rewrite IH.
Qed.

Lemma first_greatest_elem key q n : first_greatest key q n → n ∈ q.
Proof. intros (pre & post & -> & _). rewrite elem_of_app, elem_of_cons. auto. Qed.

Lemma first_greatest_ge key q n x : first_greatest key q n → x ∈ q → key x ≤ key n.
Proof.
  intros (pre & post & -> & Hpre & Hpost) Hx.
  apply elem_of_app in Hx as [Hx|Hx]; [specialize (Hpre x Hx); lia|].
  apply elem_of_cons in Hx as [->|Hx]; [done|by apply Hpost].
Qed.

Lemma pa_schedule_preempts MAX_PRIO s c p :
  live s (readyqueue s) → NoDup (readyqueue s) →
  current s = Some c → procs s !! c = Some p →
  status p ≠ PROCESS_WAIT → age p < lifespan p → c ∉ readyqueue s →
  (∃ x, x ∈ readyqueue s ∧ prio p ≤ prio_of s x) →
  ∃ n pn, first_greatest (prio_of s) (readyqueue s) n
          ∧ procs s !! n = Some pn
          ∧ pa_schedule MAX_PRIO s
            = Ok (Some n,
                  set_procs
                    (λ m, <[n := rested pn]>
                            (age_in MAX_PRIO (list_del n (readyqueue s) ++ [c]) m))
                    (set_readyqueue (list_del n (readyqueue s) ++ [c]) s)).
Proof.
  intros Hl Hnd Hc Hp Hst Hage Hcq (x & Hx & Hle).
  assert (Hne : readyqueue s ≠ []) by (intros E; rewrite E in Hx; by apply elem_of_nil in Hx).
  destruct (find_key_greatest (prio_of s) _ Hne) as (n & _ & Hfg).
  pose proof (first_greatest_elem _ _ _ Hfg) as Hn.
  destruct (live_elem _ _ _ Hl Hn) as [pn Hpn].
  exists n, pn. split; [done|]. split; [done|].
  pose proof (first_greatest_ge _ _ _ _ Hfg Hx) as Hxn.
  assert (Hcnt : length (readyqueue s) ≠ 0) by (destruct (readyqueue s); done).
  set (s1 := set_readyqueue (list_add_tail c (readyqueue s)) s).
  assert (Hpick : pa_pick_next MAX_PRIO (length (readyqueue s)) (prio_of s n) s1
                  = Ok (Some n,
                        set_procs (λ m, <[n := rested pn]>
                                          (age_in MAX_PRIO (list_del n (readyqueue s1)) m))
                          (set_readyqueue (list_del n (readyqueue s1)) s1))).
  { apply pa_pick_next_spec; [done| | | |done|done].
    - simpl. unfold list_add_tail. apply NoDup_app. split; [done|].
      split; [|apply NoDup_singleton].
      intros y Hy ->%list_elem_of_singleton. done.
    - unfold live. simpl. unfold list_add_tail. apply Forall_app. split; [done|].
      apply Forall_singleton. by exists p.
    - destruct Hfg as (pre & post & Hq & Hpre & Hpost).
      exists pre, (post ++ [c]). simpl. unfold list_add_tail. rewrite Hq.
      split; [by rewrite <- app_assoc|]. split; [done|].
      intros y Hy. apply elem_of_app in Hy as [Hy|Hy]; [by apply Hpost|].
      apply list_elem_of_singleton in Hy as ->.
      change (prio_of s c ≤ prio_of s n). rewrite (prio_of_eq _ _ _ Hp). lia. }
  unfold pa_schedule. mred. mrun.
  rewrite bool_decide_false by done. rewrite (proj2 (Nat.ltb_lt _ _) Hage).
  rewrite bool_decide_true by done.
  rewrite (max_prio_spec _ _ _ Hl), (first_greatest_max _ _ _ _ Hfg) by lia.
  rewrite (proj2 (Nat.leb_le _ _)) by lia.
  fold s1. rewrite Hpick. unfold s1. simpl. unfold list_add_tail.
  rewrite list_del_app_l by done. by destruct s.
Qed.

Lemma pa_schedule_continues MAX_PRIO s c p :
  live s (readyqueue s) → NoDup (readyqueue s) →
  current s = Some c → procs s !! c = Some p →
  status p ≠ PROCESS_WAIT → age p < lifespan p → c ∉ readyqueue s →
  (∀ x, x ∈ readyqueue s → prio_of s x < prio p) →
  pa_schedule MAX_PRIO s
  = Ok (Some c,
        set_procs (λ m, <[c := rested p]> (age_in MAX_PRIO (readyqueue s) m)) s).
Proof.
  intros Hl Hnd Hc Hp Hst Hage Hcq Hlt.
  assert (Hp' : age_in MAX_PRIO (readyqueue s) (procs s) !! c = Some p).
  { by rewrite age_in_lookup, decide_False. }
  unfold pa_schedule. mred. mrun.
  rewrite bool_decide_false by done. rewrite (proj2 (Nat.ltb_lt _ _) Hage).
  destruct (readyqueue s) as [|h t] eqn:Hq.
  - simpl. unfold reset_prio. mred. mrun. by destruct s.
  - rewrite bool_decide_true by done.
    rewrite <- Hq in *. rewrite (max_prio_spec _ _ _ Hl).
    assert (Hm : foldl Nat.max 0 (prio_of s <$> readyqueue s) < prio p).
    { destruct (foldl_max_in 0 (prio_of s <$> readyqueue s)) as [E|E].
      - rewrite E. specialize (Hlt h). rewrite Hq in Hlt.
        specialize (Hlt ltac:(by left)). lia.
      - apply list_elem_of_fmap in E as (y & -> & Hy). by apply Hlt. }
    rewrite (proj2 (Nat.leb_gt _ _)) by done.
    rewrite (age_all_spec _ _ _ Hl). unfold reset_prio. mred. mrun.
    rewrite Hp'. mrun. rewrite Hp'. by destruct s.
Qed.

Lemma pa_schedule_picks MAX_PRIO s :
  live s (readyqueue s) → NoDup (readyqueue s) →
  (∀ c, current s = Some c →
        ∃ p, procs s !! c = Some p ∧ (status p = PROCESS_WAIT ∨ lifespan p ≤ age p)) →
  (readyqueue s = [] → pa_schedule MAX_PRIO s = Ok (None, s))
  ∧ (readyqueue s ≠ [] →
     ∃ n pn, first_greatest (prio_of s) (readyqueue s) n
             ∧ procs s !! n = Some pn
             ∧ pa_schedule MAX_PRIO s
               = Ok (Some n,
                     set_procs
                       (λ m, <[n := rested pn]>
                               (age_in MAX_PRIO (list_del n (readyqueue s)) m))
                       (set_readyqueue (list_del n (readyqueue s)) s))).
Proof.
  intros Hl Hnd Hcur.
  assert (Hjump : pa_schedule MAX_PRIO s
                  = pa_pick_next MAX_PRIO (length (readyqueue s)) 0 s).
  { unfold pa_schedule. mred. destruct (current s) as [c|] eqn:Hc; [|done].
    destruct (Hcur c eq_refl) as (p & Hp & Hno). rewrite Hp.
    destruct Hno as [Hw|Hold].
    - by rewrite bool_decide_true.
    - destruct (bool_decide (status p = PROCESS_WAIT)); [done|].
      by rewrite (proj2 (Nat.ltb_ge _ _)). }
  rewrite Hjump. split.
  - intros Hq. unfold pa_pick_next. by rewrite Hq.
  - intros Hne. destruct (find_key_greatest (prio_of s) _ Hne) as (n & _ & Hfg).
    destruct (live_elem _ _ _ Hl (first_greatest_elem _ _ _ Hfg)) as [pn Hpn].
    exists n, pn. split; [done|]. split; [done|].
    apply pa_pick_next_spec; try done; [|lia]. by destruct (readyqueue s).
Qed.

(** C7.  Priority with aging.  With a sound ready queue: when the current
    process is not blocked and has age below lifespan, [pa_schedule]
    preempts it exactly when some ready process has a priority greater than
    or equal to its own: the first ready process of greatest priority is
    returned and leaves the ready queue, the runner joins the tail of the
    ready queue; otherwise the runner is returned.  When there is no such
    current process the first ready process of greatest priority is
    returned.  In each case every process of the ready queue that was not
    returned has been through the aging loop (priority one higher, bounded
    by [MAX_PRIO]) and the process returned has its priority back at its
    baseline. *)
Theorem pa_protocol (MAX_PRIO : nat) (s : sim) :
  live s (readyqueue s) →
  NoDup (readyqueue s) →
  (∀ c p, current s = Some c → procs s !! c = Some p →
          status p ≠ PROCESS_WAIT → age p < lifespan p → c ∉ readyqueue s →
     ((∃ x, x ∈ readyqueue s ∧ prio p ≤ prio_of s x) →
      ∃ n pn, first_greatest (prio_of s) (readyqueue s) n
              ∧ procs s !! n = Some pn
              ∧ pa_schedule MAX_PRIO s
                = Ok (Some n,
                      set_procs
                        (λ m, <[n := rested pn]>
                                (age_in MAX_PRIO (list_del n (readyqueue s) ++ [c]) m))
                        (set_readyqueue (list_del n (readyqueue s) ++ [c]) s)))
     ∧ ((∀ x, x ∈ readyqueue s → prio_of s x < prio p) →
        pa_schedule MAX_PRIO s
        = Ok (Some c,
              set_procs (λ m, <[c := rested p]> (age_in MAX_PRIO (readyqueue s) m)) s)))
  ∧ ((∀ c, current s = Some c →
           ∃ p, procs s !! c = Some p ∧ (status p = PROCESS_WAIT ∨ lifespan p ≤ age p)) →
     (readyqueue s = [] → pa_schedule MAX_PRIO s = Ok (None, s))
     ∧ (readyqueue s ≠ [] →
        ∃ n pn, first_greatest (prio_of s) (readyqueue s) n
                ∧ procs s !! n = Some pn
                ∧ pa_schedule MAX_PRIO s
                  = Ok (Some n,
                        set_procs
                          (λ m, <[n := rested pn]>
                                  (age_in MAX_PRIO (list_del n (readyqueue s)) m))
                          (set_readyqueue (list_del n (readyqueue s)) s))))
  ∧ (∀ q m x, NoDup q →
       age_in MAX_PRIO q m !! x
       = if decide (x ∈ q) then aged MAX_PRIO <$> m !! x else m !! x)
  ∧ (∀ p, prio p ≤ MAX_PRIO → prio (aged MAX_PRIO p) = (prio p + 1) `min` MAX_PRIO)
  ∧ (∀ p, MAX_PRIO < prio p → aged MAX_PRIO p = p)
  ∧ (∀ p, prio (rested p) = prio_orig p).
Proof.
  intros Hl Hnd. split_and!.
  - intros c p Hc Hp Hst Hage Hcq. split.
    + by apply pa_schedule_preempts.
    + by apply pa_schedule_continues.
  - by apply pa_schedule_picks.
  - intros q m x. apply age_in_lookup.
  - intros p Hp. unfold aged. destruct (Nat.ltb_spec (prio p) MAX_PRIO); simpl; lia.
  - intros p Hp. unfold aged. destruct (Nat.ltb_spec (prio p) MAX_PRIO); [lia|done].
  - done.
Qed.

(** * Instances

    Each statement above, applied at a concrete state. *)




(** [fcfs_protocol] at a process that asks for a resource another one
    owns. *)
Lemma fcfs_protocol_witness :
  let p := Process 1 PROCESS_RUNNING 0 3 0 0 0 [] [] in
  let q := Process 2 PROCESS_READY 1 3 0 0 0 [] [] in
  let s := pair_state p q [1] [Resource (Some 1) []] in
  (0 ≤ 0)%Z
  ∧ resources s !! Z.to_nat 0 = Some (Resource (Some 1) [])
  ∧ current s = Some 0
  ∧ procs s !! 0 = Some p
  ∧ fcfs_acquire 0 s
    = Ok (false,
          set_resources (<[Z.to_nat 0 := Resource (Some 1) ([] ++ [0])]>)
            (set_procs (<[0 := set_status PROCESS_WAIT p]>) s)).
Proof.
  intros p q s.
  assert (H1 : (0 ≤ 0)%Z) by lia.
  assert (H2 : resources s !! Z.to_nat 0 = Some (Resource (Some 1) [])) by reflexivity.
  assert (H3 : current s = Some 0) by reflexivity.
  assert (H4 : procs s !! 0 = Some p) by (vm_compute; reflexivity).
  split; [exact H1|]. split; [exact H2|]. split; [exact H3|]. split; [exact H4|].
  exact (proj1 (proj2 (fcfs_protocol s 0 (Resource (Some 1) []) 0 p H1 H2 H3 H4))
           (ex_intro _ 1 eq_refl)).
Defined.



(** [srtf_preempts] at tick 2 of [srtf_script]: the process of lifespan 1
    that was just forked takes over from the runner, which has 3 ticks
    left. *)
Lemma srtf_preempts_witness :
  let p := Process 1 PROCESS_RUNNING 2 5 0 0 0 [] [] in
  reachable srtf_scheduler (boot 1 srtf_script) srtf_at_2
  ∧ __fork_on_schedule srtf_scheduler srtf_at_2 = Ok (1, srtf_forked)
  ∧ current srtf_forked = Some 0
  ∧ procs srtf_forked !! 0 = Some p
  ∧ ∃ q, lifespan_of srtf_forked q < lifespan p - age p
         ∧ srtf_schedule srtf_forked
           = Ok (Some q,
                 set_readyqueue (0 :: list_del q (readyqueue srtf_forked)) srtf_forked).
Proof.
  intros p.
  assert (H1 : reachable srtf_scheduler (boot 1 srtf_script) srtf_at_2).
  { apply (reachable_round _ _
             (outcome (round srtf_scheduler (boot 1 srtf_script)) (boot 1 srtf_script))).
    - apply (reachable_round _ _ (boot 1 srtf_script)); [apply reachable_start|].
      vm_compute. reflexivity.
    - vm_compute. reflexivity. }
  assert (H2 : __fork_on_schedule srtf_scheduler srtf_at_2 = Ok (1, srtf_forked))
    by (vm_compute; reflexivity).
  assert (H3 : current srtf_forked = Some 0) by (vm_compute; reflexivity).
  assert (H4 : procs srtf_forked !! 0 = Some p) by (vm_compute; reflexivity).
  assert (H5 : status p ≠ PROCESS_WAIT) by discriminate.
  assert (H6 : age p < lifespan p) by (simpl; lia).
  split; [exact H1|]. split; [exact H2|]. split; [exact H3|]. split; [exact H4|].
  destruct (proj1 (srtf_preempts 1 srtf_script srtf_at_2 srtf_forked 1 0 p
                     H1 H2 H3 H4 H5 H6))
    as (q & _ & Hlt & Hrun).
  - exists 1. split; [vm_compute; apply list_elem_of_here|vm_compute; lia].
  - exists q. auto.
Defined.

(** [rr_rotates] at tick 1 of [rr_script]: process 2 is at the head of the
    ready queue and runs; process 1 goes to the tail. *)
Lemma rr_rotates_witness :
  let p := Process 1 PROCESS_RUNNING 1 3 0 0 0 [] [] in
  reachable rr_scheduler (boot 1 rr_script) rr_at_1
  ∧ __fork_on_schedule rr_scheduler rr_at_1 = Ok (0, rr_forked)
  ∧ current rr_forked = Some 0
  ∧ procs rr_forked !! 0 = Some p
  ∧ readyqueue rr_forked = [1]
  ∧ rr_schedule rr_forked
    = Ok (Some 1,
          set_readyqueue ([] ++ [0])
            (set_ticks_cnt (wrap_int (ticks_cnt rr_forked + 1)) rr_forked)).
Proof.
  intros p.
  assert (H1 : reachable rr_scheduler (boot 1 rr_script) rr_at_1).
  { apply (reachable_round _ _ (boot 1 rr_script)); [apply reachable_start|].
    vm_compute. reflexivity. }
  assert (H2 : __fork_on_schedule rr_scheduler rr_at_1 = Ok (0, rr_forked))
    by (vm_compute; reflexivity).
  assert (H3 : current rr_forked = Some 0) by (vm_compute; reflexivity).
  assert (H4 : procs rr_forked !! 0 = Some p) by (vm_compute; reflexivity).
  assert (H5 : status p ≠ PROCESS_WAIT) by discriminate.
  assert (H6 : age p < lifespan p) by (simpl; lia).
  assert (H7 : readyqueue rr_forked = [1]) by (vm_compute; reflexivity).
  split; [exact H1|]. split; [exact H2|]. split; [exact H3|]. split; [exact H4|].
  split; [exact H7|].
  exact (proj1 (rr_rotates 1 rr_script rr_at_1 rr_forked 0 0 p H1 H2 H3 H4 H5 H6)
           1 [] H7).
Defined.

(** [pa_protocol] at a runner of priority 2 with a ready process of
    priority 5. *)
Lemma pa_protocol_witness :
  let p := Process 1 PROCESS_RUNNING 1 3 2 2 0 [] [] in
  let q := Process 2 PROCESS_READY 0 3 5 4 0 [] [] in
  let s := pair_state p q [1] [] in
  live s (readyqueue s)
  ∧ NoDup (readyqueue s)
  ∧ ∃ n pn,
      first_greatest (prio_of s) (readyqueue s) n
      ∧ procs s !! n = Some pn
      ∧ pa_schedule 64 s
        = Ok (Some n,
              set_procs
                (λ m, <[n := rested pn]>
                        (age_in 64 (list_del n (readyqueue s) ++ [0]) m))
                (set_readyqueue (list_del n (readyqueue s) ++ [0]) s)).
Proof.
  intros p q s.
  assert (H1 : live s (readyqueue s)).
  { apply Forall_cons. split; [exists q; vm_compute; reflexivity|apply Forall_nil_2]. }
  assert (H2 : NoDup (readyqueue s)) by apply NoDup_singleton.
  split; [exact H1|]. split; [exact H2|].
  apply (proj1 (pa_protocol 64 s H1 H2) 0 p).
  - reflexivity.
  - vm_compute. reflexivity.
  - discriminate.
  - simpl. lia.
  - intros Hin. apply list_elem_of_singleton in Hin. discriminate Hin.
  - exists 1. split; [apply list_elem_of_here|]. vm_compute. lia.
Defined.



(** [pip_protocol] at a process of priority 5 that asks for a resource
    owned by a process of priority 1. *)
Lemma pip_protocol_witness :
  let p := Process 1 PROCESS_RUNNING 0 3 5 5 0 [] [] in
  let q := Process 2 PROCESS_READY 1 3 1 1 0 [] [] in
  let s := pair_state p q [1] [Resource (Some 1) []] in
  (0 ≤ 0)%Z
  ∧ resources s !! Z.to_nat 0 = Some (Resource (Some 1) [])
  ∧ current s = Some 0
  ∧ procs s !! 0 = Some p
  ∧ ∃ s', pip_acquire 0 s = Ok (false, s')
          ∧ procs s' !! 1 = Some (set_prio 5 q).
Proof.
  intros p q s.
  assert (H1 : (0 ≤ 0)%Z) by lia.
  assert (H2 : resources s !! Z.to_nat 0 = Some (Resource (Some 1) [])) by reflexivity.
  assert (H3 : current s = Some 0) by reflexivity.
  assert (H4 : procs s !! 0 = Some p) by (vm_compute; reflexivity).
  assert (H5 : procs s !! 1 = Some q) by (vm_compute; reflexivity).
  split; [exact H1|]. split; [exact H2|]. split; [exact H3|]. split; [exact H4|].
  destruct (proj1 (pip_protocol s 0 (Resource (Some 1) []) 0 p H1 H2 H3 H4)
              1 q eq_refl H5)
    as (s' & Hacq & _ & _ & Hown & _).
  exists s'. split; [exact Hacq|]. apply Hown. discriminate.
Defined.

